(** * OpenPaw memory manager: a shallow embedding of [src/memory/memory-manager.ts]

    The development follows the source file top to bottom: JavaScript strings
    and the string primitives the code calls, the record format
    ([serializeEntry], [parseMemoryMd]), the files of the entry store, the
    full-text index table, the short-term window and the operations of
    [MemoryManager]. *)

From Stdlib Require Import String Ascii.

From Stdlib Require Import List NArith ZArith Bool Lia Permutation Sorted DecimalString.

Import ListNotations.

Open Scope list_scope.

(** ** JavaScript strings

    A JavaScript string is a sequence of UTF-16 code units. *)

Abbreviation char := N (only parsing).

Abbreviation str := (list N) (only parsing).

(** String literals of the source, written as Rocq strings (ASCII only). *)
Definition lit (x : string) : str := map N_of_ascii (list_ascii_of_string x).

Definition nl : char := 10%N.        (* "\n" *)
Definition dash : char := 45%N.      (* "-" *)
Definition quote : char := 34%N.     (* the double quote *)

Fixpoint str_eqb (a b : str) : bool :=
  match a, b with
  | [], [] => true
  | x :: a', y :: b' => N.eqb x y && str_eqb a' b'
  | _, _ => false
  end.

(** ECMAScript LineTerminator: LF, CR, LS, PS. *)
Definition is_lt (c : char) : bool :=
  ((c =? 10) || (c =? 13) || (c =? 8232) || (c =? 8233))%N.

(** ECMAScript WhiteSpace and LineTerminator, the characters [trim] strips. *)
Definition is_ws (c : char) : bool :=
  (is_lt c || (c =? 9) || (c =? 11) || (c =? 12) || (c =? 32) || (c =? 160)
   || (c =? 5760) || ((8192 <=? c) && (c <=? 8202)) || (c =? 8239)
   || (c =? 8287) || (c =? 12288) || (c =? 65279))%N.

Definition is_empty {A} (s : list A) : bool :=
  match s with [] => true | _ => false end.

(** [String.prototype.trimStart], [trimEnd] and [trim]. *)
Fixpoint trimStart (s : str) : str :=
  match s with
  | c :: s' => if is_ws c then trimStart s' else s
  | [] => []
  end.

Fixpoint trimEnd (s : str) : str :=
  match s with
  | [] => []
  | c :: s' =>
      let r := trimEnd s' in
      if is_ws c && is_empty r then [] else c :: r
  end.

Definition trim (s : str) : str := trimStart (trimEnd s).

(** [String.prototype.startsWith] and [endsWith]. *)
Fixpoint startsWith (p s : str) : bool :=
  match p, s with
  | [], _ => true
  | x :: p', y :: s' => N.eqb x y && startsWith p' s'
  | _ :: _, [] => false
  end.

Definition endsWith (p s : str) : bool := startsWith (rev p) (rev s).

(** [String.prototype.split] with a non-empty string separator.  [skip]
    counts the code units of a matched separator still to be stepped over;
    the result is the piece being read and the pieces after it. *)
Fixpoint split_aux (sep : str) (skip : nat) (s : str) : str * list str :=
  match s with
  | [] => ([], [])
  | c :: s' =>
      match skip with
      | S k => split_aux sep k s'
      | O =>
          if startsWith sep s
          then let (p, ps) := split_aux sep (length sep - 1) s' in ([], p :: ps)
          else let (p, ps) := split_aux sep 0 s' in (c :: p, ps)
      end
  end.

Definition split (sep s : str) : list str :=
  let (p, ps) := split_aux sep 0 s in p :: ps.

(** [Array.prototype.join]. *)
Fixpoint join (sep : str) (l : list str) : str :=
  match l with
  | [] => []
  | [x] => x
  | x :: l' => x ++ sep ++ join sep l'
  end.

(** [raw.split(/^---$/m)]: with the [m] flag [^] matches at the start of the
    input and after a line terminator, [$] at the end of the input and before
    a line terminator.  [sep_here s] says that the regular expression matches
    at the head of [s], given that the head is at the beginning of a line. *)
Definition sep_here (s : str) : bool :=
  match s with
  | a :: b :: c :: rest =>
      N.eqb a dash && N.eqb b dash && N.eqb c dash &&
      match rest with [] => true | d :: _ => is_lt d end
  | _ => false
  end.

(** [bol]: the position read is at the beginning of a line. *)
Fixpoint split_blocks_aux (bol : bool) (s : str) : str * list str :=
  match s with
  | [] => ([], [])
  | c :: s' =>
      if bol && sep_here s
      then match s' with
           | _ :: _ :: rest =>
               let (p, ps) := split_blocks_aux false rest in ([], p :: ps)
           | _ => ([], [])
           end
      else let (p, ps) := split_blocks_aux (is_lt c) s' in (c :: p, ps)
  end.

Definition split_blocks (raw : str) : list str :=
  let (p, ps) := split_blocks_aux true raw in p :: ps.

(** [/^[a-z_]+: .+$/i.test(line)]: a non-empty run of ASCII letters and
    underscores, then a colon and a space, then at least one character, none
    of them a line terminator ([.] excludes them), up to the end of the
    line.  Without the [u] flag, [i] relates no character above U+007F to an
    ASCII letter. *)
Definition is_key_char (c : char) : bool :=
  (((97 <=? c) && (c <=? 122)) || ((65 <=? c) && (c <=? 90)) || (c =? 95))%N.

Fixpoint skip_key (s : str) : str :=
  match s with
  | c :: s' => if is_key_char c then skip_key s' else s
  | [] => []
  end.

Definition is_meta_line (line : str) : bool :=
  match line with
  | c :: _ =>
      is_key_char c &&
      match skip_key line with
      | 58%N :: 32%N :: v => negb (is_empty v) && forallb (fun x => negb (is_lt x)) v
      | _ => false
      end
  | [] => false
  end.

(** ** Types *)

Record MemoryEntry := mkEntry {
  id : str;
  type : str;          (* "fact" | "preference" | "decision" | "summary" | "log" *)
  content : str;
  tags : list str;
  createdAt : str;     (* ISO *)
  updatedAt : str;     (* ISO *)
  source : str         (* "user" | "agent" | "system" *)
}.

Record ShortTermMessage := mkMsg {
  role : str;
  msg_content : str;
  timestamp : Z
}.

(** ** Helpers *)

(** [today()]: [new Date().toISOString().split("T")[0]], for the clock
    reading [now] (the ISO string of [new Date()]). *)
Definition today (now : str) : str := hd [] (split (lit "T") now).

(** The object [meta] of [parseMemoryMd]: the latest assignment to a key
    wins. *)
Definition Meta := list (str * str).

Fixpoint meta_get (m : Meta) (k : str) : option str :=
  match m with
  | [] => None
  | (k', v) :: m' => if str_eqb k' k then Some v else meta_get m' k
  end.

Definition meta_set (m : Meta) (k v : str) : Meta := (k, v) :: m.

(** JavaScript truthiness of a possibly undefined string. *)
Definition truthy (v : option str) : bool :=
  match v with Some (_ :: _) => true | _ => false end.

(** [v ?? d]. *)
Definition nullish (v : option str) (d : str) : str :=
  match v with Some x => x | None => d end.

Record LineState := mkLS {
  ls_meta : Meta;
  contentLines : list str;
  inContent : bool
}.

(** One iteration of [for (const line of lines)]. *)
Definition parse_line (st : LineState) (line : str) : LineState :=
  if inContent st then
    mkLS (ls_meta st) (contentLines st ++ [line]) true
  else if startsWith (lit "<!--") line && endsWith (lit "-->") line then
    st
  else if is_meta_line line then
    match split (lit ": ") line with
    | k :: rest =>
        mkLS (meta_set (ls_meta st) (trim k) (trim (join (lit ": ") rest)))
             (contentLines st) false
    | [] => st
    end
  else
    mkLS (ls_meta st) (contentLines st ++ [line]) true.

(** The body of [for (const block of blocks)]: [None] is [continue].  [now]
    is the reading of [new Date().toISOString()] used for absent
    timestamps. *)
Definition parse_block (now : str) (block : str) : option MemoryEntry :=
  let lines := split [nl] block in
  let st := fold_left parse_line lines (mkLS [] [] false) in
  let meta := ls_meta st in
  if negb (truthy (meta_get meta (lit "id")))
     || is_empty (trim (join [] (contentLines st)))
  then None
  else Some {|
    id := nullish (meta_get meta (lit "id")) [];
    type := nullish (meta_get meta (lit "type")) (lit "fact");
    content := trim (join [nl] (contentLines st));
    tags := if truthy (meta_get meta (lit "tags"))
            then map trim (split (lit ",") (nullish (meta_get meta (lit "tags")) []))
            else [];
    createdAt := nullish (meta_get meta (lit "createdAt")) now;
    updatedAt := nullish (meta_get meta (lit "updatedAt")) now;
    source := nullish (meta_get meta (lit "source")) (lit "agent")
  |}.

Definition opt_list {A} (o : option A) : list A :=
  match o with Some x => [x] | None => [] end.

Definition parseMemoryMd (now : str) (raw : str) : list MemoryEntry :=
  let blocks := filter (fun b => negb (is_empty b)) (map trim (split_blocks raw)) in
  flat_map (fun b => opt_list (parse_block now b)) blocks.

Definition serializeEntry (e : MemoryEntry) : str :=
  join [nl]
    [ lit "id: " ++ id e;
      lit "type: " ++ type e;
      lit "tags: " ++ join (lit ", ") (tags e);
      lit "createdAt: " ++ createdAt e;
      lit "updatedAt: " ++ updatedAt e;
      lit "source: " ++ source e;
      [];
      content e;
      [];
      lit "---" ].

(** ** The entry store, the index table and the window

    The files under [MEMORY_DIR] and the table of [memory.db] are the state
    the methods of [MemoryManager] read and write. *)

(** A row of the FTS5 table [memory_fts]. *)
Record Row := mkRow {
  r_id : str;
  r_type : str;
  r_content : str;
  r_tags : str;
  r_source : str;
  r_created_at : str;
  r_updated_at : str
}.

(** A file is the string written to it.  The code stores UTF-8, which
    gives a string without unpaired surrogate back as it is, and U+FFFD for
    an unpaired surrogate.  [readdir] returns the names sorted; the list
    keeps the files in the order of their creation, and the order between
    two files matters to no statement below. *)
Record Store := mkStore {
  MEMORY_MD : option str;          (* MEMORY.md; [None]: the file does not exist *)
  DAILY_DIR : list (str * str);    (* memory/: file name and content, by creation *)
  memory_fts : list Row;           (* rows in rowid order *)
  shortTerm : list ShortTermMessage
}.

(** [fs.appendFile]: appends to the file, creating it when it is absent. *)
Fixpoint appendFile (dir : list (str * str)) (name text : str) : list (str * str) :=
  match dir with
  | [] => [(name, text)]
  | (n, c) :: d =>
      if str_eqb n name then (n, c ++ text) :: d
      else (n, c) :: appendFile d name text
  end.

(** The parameters of the [INSERT INTO memory_fts] statements. *)
Definition row_of (r : MemoryEntry) : Row :=
  {| r_id := id r; r_type := type r; r_content := content r;
     r_tags := join (lit " ") (tags r); r_source := source r;
     r_created_at := createdAt r; r_updated_at := updatedAt r |}.

(** [DELETE FROM memory_fts WHERE id = ?]. *)
Definition delete_rows (i : str) (t : list Row) : list Row :=
  filter (fun r => negb (str_eqb (r_id r) i)) t.

(** A clock: the [k]-th evaluation of [new Date()] during one call reads
    [clk k] (as the string [toISOString()] makes of it).  One call of
    [readAllEntries] or [parseMemoryMd] takes one reading for all the
    timestamps it defaults. *)
Definition Clock := nat -> str.

Definition readAllEntries (now : str) (s : Store) : list MemoryEntry :=
  match MEMORY_MD s with
  | Some raw => parseMemoryMd now raw
  | None => []
  end
  ++ flat_map (fun f => parseMemoryMd now (snd f))
       (filter (fun f => endsWith (lit ".md") (fst f)) (DAILY_DIR s)).

Definition getEntry (now : str) (s : Store) (i : str) : option MemoryEntry :=
  find (fun e => str_eqb (id e) i) (readAllEntries now s).

(** The [options] argument of [save]; [None] is an absent property. *)
Record SaveOptions := mkOpts {
  opt_id : option str;
  opt_type : option str;
  opt_tags : option (list str);
  opt_source : option str
}.

Definition long_term_header (label now : str) : str :=
  lit "# OpenPaw Long-Term Memory" ++ [nl; nl] ++ label ++ now ++ [nl; nl]
  ++ lit "---" ++ [nl].

(** [entries.findIndex(e => e.id === entry.id)], then [entries[idx] = entry]
    or [entries.push(entry)]. *)
Fixpoint upsert_entry (entry : MemoryEntry) (entries : list MemoryEntry) : list MemoryEntry :=
  match entries with
  | [] => [entry]
  | e :: es =>
      if str_eqb (id e) (id entry) then entry :: es
      else e :: upsert_entry entry es
  end.

(** [Array.prototype.slice(start)]. *)
Definition slice_from {A} (start : Z) (l : list A) : list A :=
  let len := Z.of_nat (length l) in
  let k := if (start <? 0)%Z then Z.max (len + start) 0 else Z.min start len in
  skipn (Z.to_nat k) l.

(** The object literal [entry] of [save]; [existing] is the result of
    [getEntry] ([None] for [null]). *)
Definition new_entry (now rnd content_arg : str) (options : SaveOptions)
    (existing : option MemoryEntry) : MemoryEntry :=
  {| id := match opt_id options with Some i => i | None => rnd end;
     type := match opt_type options with Some t => t | None => lit "fact" end;
     content := trim content_arg;
     tags := match opt_tags options with Some t => t | None => [] end;
     source := match opt_source options with Some x => x | None => lit "agent" end;
     createdAt := match existing with Some e => createdAt e | None => now end;
     updatedAt := now |}.

(** The two partitions as [readAllEntries] reads them. *)
Definition long_term (now : str) (s : Store) : list MemoryEntry :=
  match MEMORY_MD s with
  | Some raw => parseMemoryMd now raw
  | None => []
  end.

Definition daily_logs (now : str) (s : Store) : list MemoryEntry :=
  flat_map (fun f => parseMemoryMd now (snd f))
    (filter (fun f => endsWith (lit ".md") (fst f)) (DAILY_DIR s)).

Section Manager.

(** [parseInt(process.env.OPENPAW_SHORT_TERM_WINDOW ?? "20")] and
    [parseInt(process.env.OPENPAW_MAX_FACTS ?? "200")]. *)
Variable MAX_SHORT_TERM : Z.
Variable MAX_FACTS : Z.

(** [String.prototype.localeCompare], the collation of the host. *)
Variable localeCompare : str -> str -> Z.

(** [Array.prototype.sort] with the comparison function
    [(a, b) => a.updatedAt.localeCompare(b.updatedAt)].  The sort is stable;
    for a consistent comparison function every stable sort returns the list
    computed here. *)
Fixpoint sort_insert (x : MemoryEntry) (l : list MemoryEntry) : list MemoryEntry :=
  match l with
  | [] => [x]
  | y :: l' =>
      if (localeCompare (updatedAt y) (updatedAt x) >? 0)%Z
      then x :: y :: l'
      else y :: sort_insert x l'
  end.

Definition sort_by_updatedAt (l : list MemoryEntry) : list MemoryEntry :=
  fold_left (fun acc x => sort_insert x acc) l [].

(** *** Init *)

Definition rebuildIndex (now : str) (s : Store) : Store :=
  let entries := readAllEntries now s in
  mkStore (MEMORY_MD s) (DAILY_DIR s) (map row_of entries) (shortTerm s).

Definition init (clk : Clock) (s : Store) : Store :=
  let s1 :=
    match MEMORY_MD s with
    | Some _ => s
    | None =>
        mkStore (Some (long_term_header (lit "Created: ") (clk 0%nat)))
                (DAILY_DIR s) (memory_fts s) (shortTerm s)
    end in
  rebuildIndex (clk 1%nat) s1.

(** *** Write *)

Definition appendDailyLog (now : str) (entry : MemoryEntry) (s : Store) : Store :=
  let file := today now ++ lit ".md" in
  let block := serializeEntry entry in
  mkStore (MEMORY_MD s) (appendFile (DAILY_DIR s) file (block ++ [nl]))
          (memory_fts s) (shortTerm s).

Definition upsertLongTerm (t_parse t_header : str) (entry : MemoryEntry) (s : Store) : Store :=
  let raw := match MEMORY_MD s with Some r => r | None => [] end in
  let entries := upsert_entry entry (parseMemoryMd t_parse raw) in
  let trimmed := slice_from (- MAX_FACTS) (sort_by_updatedAt entries) in
  let header := long_term_header (lit "Last updated: ") t_header in
  let body := join [nl] (map serializeEntry trimmed) in
  mkStore (Some (header ++ body)) (DAILY_DIR s) (memory_fts s) (shortTerm s).

(** [save(content, options)].  [rnd] is the string [uuid()] returns when it
    is called.  Clock readings: 0 is [now], 1 is taken by [getEntry], 2 by
    [appendDailyLog] or by the parse of [upsertLongTerm], 3 by the header
    of [upsertLongTerm]. *)
Definition save (clk : Clock) (rnd : str) (content_arg : str) (options : SaveOptions)
    (s : Store) : MemoryEntry * Store :=
  let now := clk 0%nat in
  let existing :=
    match opt_id options with
    | Some (c :: i) => getEntry (clk 1%nat) s (c :: i)
    | _ => None
    end in
  let entry := new_entry now rnd content_arg options existing in
  let s1 :=
    if str_eqb (type entry) (lit "log")
    then appendDailyLog (clk 2%nat) entry s
    else upsertLongTerm (clk 2%nat) (clk 3%nat) entry s in
  (entry,
   mkStore (MEMORY_MD s1) (DAILY_DIR s1)
           (delete_rows (id entry) (memory_fts s1) ++ [row_of entry])
           (shortTerm s1)).

(** *** Delete *)

(** Clock readings: 0 for the parse, 1 for the header. *)
Definition forget (clk : Clock) (i : str) (s : Store) : bool * Store :=
  match MEMORY_MD s with
  | None => (false, s)
  | Some raw =>
      let entries := parseMemoryMd (clk 0%nat) raw in
      let filtered := filter (fun e => negb (str_eqb (id e) i)) entries in
      if Nat.eqb (length filtered) (length entries) then (false, s)
      else
        let header := long_term_header (lit "Last updated: ") (clk 1%nat) in
        (true,
         mkStore (Some (header ++ join [nl] (map serializeEntry filtered)))
                 (DAILY_DIR s) (delete_rows i (memory_fts s)) (shortTerm s))
  end.

(** *** Short-term *)

Definition addToShortTerm (msg : ShortTermMessage) (s : Store) : Store :=
  let pushed := shortTerm s ++ [msg] in
  mkStore (MEMORY_MD s) (DAILY_DIR s) (memory_fts s)
    (if (Z.of_nat (length pushed) >? MAX_SHORT_TERM)%Z then tl pushed else pushed).

Definition getShortTerm (s : Store) : list ShortTermMessage := shortTerm s.

Definition clearShortTerm (s : Store) : Store :=
  mkStore (MEMORY_MD s) (DAILY_DIR s) (memory_fts s) [].

(** *** Auto-flush *)

(** The text [flushSession] saves: [agentSummary ?? (...)]. *)
Definition session_summary (agentSummary : option str) (window : list ShortTermMessage) : str :=
  match agentSummary with
  | Some a => a
  | None =>
      match window with
      | [] => lit "Empty session."
      | _ :: _ =>
          lit "Session ended with "
          ++ lit (DecimalString.NilZero.string_of_uint (Nat.to_uint (length window)))
          ++ lit " turns. Last user message: " ++ [quote]
          ++ match rev (filter (fun m => str_eqb (role m) (lit "user")) window) with
             | m :: _ => firstn 200 (msg_content m)
             | [] => lit "N/A"
             end
          ++ [quote]
      end
  end.

(** Clock reading 0 is the [today()] of the tag; [save] reads on from 1. *)
Definition flushSession (clk : Clock) (rnd : str) (agentSummary : option str)
    (s : Store) : Store :=
  let summary := session_summary agentSummary (shortTerm s) in
  let '(_, s1) :=
    save (fun k => clk (S k)) rnd summary
         (mkOpts None (Some (lit "log"))
                 (Some [lit "session-summary"; today (clk 0%nat)])
                 (Some (lit "system"))) s in
  clearShortTerm s1.

(** *** Sequences of calls *)

Inductive Op :=
| OpSave (clk : Clock) (rnd : str) (content_arg : str) (options : SaveOptions)
| OpForget (clk : Clock) (i : str)
| OpFlush (clk : Clock) (rnd : str) (agentSummary : option str)
| OpAdd (msg : ShortTermMessage).

Definition step (s : Store) (op : Op) : Store :=
  match op with
  | OpSave clk rnd c o => snd (save clk rnd c o s)
  | OpForget clk i => snd (forget clk i s)
  | OpFlush clk rnd a => flushSession clk rnd a s
  | OpAdd m => addToShortTerm m s
  end.

Definition run (s : Store) (ops : list Op) : Store := fold_left step ops s.

End Manager.

(** ** Well-formed records

    The values the record format carries unchanged. *)

Definition no_lt (s : str) : bool := forallb (fun c => negb (is_lt c)) s.

(** A metadata value: non-empty, on one line, no blank at either end. *)
Definition wf_meta (v : str) : bool :=
  negb (is_empty v) && no_lt v && str_eqb (trim v) v.

(** A tag: a metadata value without a comma. *)
Definition wf_tag (t : str) : bool :=
  wf_meta t && forallb (fun c => negb (N.eqb 44 c)) t.

(** [has_sep bol s]: the separator [/^---$/m] matches somewhere in [s]. *)
Fixpoint has_sep (bol : bool) (s : str) : bool :=
  match s with
  | [] => false
  | c :: s' => (bol && sep_here s) || has_sep (is_lt c) s'
  end.

(** A content: not blank, and no line of it is the block terminator. *)
Definition wf_content (c : str) : bool :=
  negb (is_empty (trim c)) && negb (has_sep true c).

Definition wf_entry (e : MemoryEntry) : bool :=
  wf_meta (id e) && wf_meta (type e)
  && negb (is_empty (tags e)) && forallb wf_tag (tags e)
  && wf_meta (createdAt e) && wf_meta (updatedAt e) && wf_meta (source e)
  && wf_content (content e).

(** The entry with its content trimmed. *)
Definition trimmed (e : MemoryEntry) : MemoryEntry :=
  mkEntry (id e) (type e) (trim (content e)) (tags e)
          (createdAt e) (updatedAt e) (source e).

(** A well-formed entry as [save] builds it: the content is trimmed. *)
Definition wf_stored (e : MemoryEntry) : bool :=
  wf_entry e && str_eqb (trim (content e)) (content e).

(** [ends_lt s]: [s] is not empty and its last character is a line
    terminator. *)
Fixpoint ends_lt (s : str) : bool :=
  match s with
  | [] => false
  | [c] => is_lt c
  | _ :: s' => ends_lt s'
  end.

(** ** The record format as text *)

(** The pieces [split_blocks_aux] reads from a position, as one list. *)
Definition pieces (bol : bool) (s : str) : list str :=
  let (p, ps) := split_blocks_aux bol s in p :: ps.

(** A text is closed when it is empty or ends with a terminator line and
    its line terminator. *)
Definition closed (a : str) : Prop :=
  a = [] \/ exists a0 l, a = a0 ++ dash :: dash :: dash :: [l]
                         /\ is_lt l = true /\ (a0 = [] \/ ends_lt a0 = true).

(** A text is closed when it is empty or ends with a terminator line and
    its line terminator: the computable form. *)
Definition closedb (raw : str) : bool :=
  match rev raw with
  | [] => true
  | l :: c3 :: c2 :: c1 :: r =>
      is_lt l && N.eqb c1 dash && N.eqb c2 dash && N.eqb c3 dash
      && match r with [] => true | x :: _ => is_lt x end
  | _ => false
  end.

(** The lines [serializeEntry] joins. *)
Definition meta_line (key v : str) : str := key ++ lit ": " ++ v.

Definition meta_lines (e : MemoryEntry) : list str :=
  [ meta_line (lit "id") (id e);
    meta_line (lit "type") (type e);
    meta_line (lit "tags") (join (lit ", ") (tags e));
    meta_line (lit "createdAt") (createdAt e);
    meta_line (lit "updatedAt") (updatedAt e);
    meta_line (lit "source") (source e) ].

(** The text of a serialized entry before its terminator. *)
Definition block_text (e : MemoryEntry) : str :=
  join [nl] (meta_lines e ++ [[]; content e; []]) ++ [nl].

(** The same text without the line terminator at its end. *)
Definition block_body (e : MemoryEntry) : str :=
  join [nl] (meta_lines e ++ [[]; content e; []]).

(** The header of the long-term file before its terminator line. *)
Definition header_text (label now : str) : str :=
  lit "# OpenPaw Long-Term Memory" ++ [nl; nl] ++ label ++ now ++ [nl].

(** A header label: no record starts in it and no terminator line. *)
Definition wf_label (label : str) : Prop :=
  label <> [] /\ N.eqb (hd dash label) dash = false /\ no_lt label = true.

(** ** Well-formed stores and calls *)

(** The long-term file holds well-formed entries with distinct ids, the same
    at every reading of the clock. *)
Definition long_term_ok (s : Store) : Prop :=
  exists es, (forall t, long_term t s = es)
             /\ Forall (fun e => wf_stored e = true) es
             /\ NoDup (map id es).

(** Every daily log is closed and holds well-formed entries, the same at
    every reading of the clock. *)
Definition log_ok (raw : str) : Prop :=
  closed raw
  /\ exists es, (forall t, parseMemoryMd t raw = es)
                /\ Forall (fun e => wf_stored e = true) es.

(** All daily logs are such files. *)
Definition logs_ok (s : Store) : Prop :=
  Forall (fun f => log_ok (snd f)) (DAILY_DIR s).

(** A well-formed store. *)
Definition store_ok (s : Store) : Prop := long_term_ok s /\ logs_ok s.

(** The clock reads well-formed timestamps. *)
Definition wf_clock (clk : Clock) : Prop :=
  forall k, wf_meta (clk k) = true /\ wf_tag (today (clk k)) = true.

(** The arguments of a [save] that make a well-formed entry. *)
Definition wf_save (rnd content_arg : str) (o : SaveOptions) : bool :=
  wf_meta (match opt_id o with Some i => i | None => rnd end)
  && wf_meta (match opt_type o with Some t => t | None => lit "fact" end)
  && match opt_tags o with
     | Some ts => negb (is_empty ts) && forallb wf_tag ts
     | None => false
     end
  && wf_meta (match opt_source o with Some x => x | None => lit "agent" end)
  && wf_content (trim content_arg).

(** The [existing] of [save]. *)
Definition existing_of (clk : Clock) (o : SaveOptions) (s : Store) : option MemoryEntry :=
  match opt_id o with
  | Some (c :: i) => getEntry (clk 1%nat) s (c :: i)
  | _ => None
  end.

(** The [entry.type === "log"] of [save], from the options. *)
Definition is_log (o : SaveOptions) : bool :=
  str_eqb (match opt_type o with Some t => t | None => lit "fact" end) (lit "log").

(** The options [flushSession] passes to [save]. *)
Definition flush_options (day : str) : SaveOptions :=
  mkOpts None (Some (lit "log")) (Some [lit "session-summary"; day]) (Some (lit "system")).

(** The id under which [save] stores. *)
Definition saved_id (rnd : str) (o : SaveOptions) : str :=
  match opt_id o with Some i => i | None => rnd end.

(** A call with well-formed arguments. *)
Definition wf_op (s : Store) (op : Op) : Prop :=
  match op with
  | OpSave clk rnd c o => wf_clock clk /\ wf_save rnd c o = true
  | OpForget clk i => wf_clock clk
  | OpFlush clk rnd a =>
      wf_clock clk /\ wf_meta rnd = true
      /\ wf_content (trim (session_summary a (shortTerm s))) = true
  | OpAdd _ => True
  end.


(** The store before the first call: no file, no row, no message. *)
Definition empty_store : Store := mkStore None [] [] [].

(** One call of [save]: its clock, the id [uuid()] would return, and the
    arguments. *)
Record SaveRequest := mkReq {
  rq_clk : Clock;
  rq_rnd : str;
  rq_content : str;
  rq_options : SaveOptions
}.



Section Calls.

Variable MAX_SHORT_TERM : Z.
Variable MAX_FACTS : Z.
Variable localeCompare : str -> str -> Z.

(** [a] was updated no later than [b]. *)
Definition le_time (a b : MemoryEntry) : Prop :=
  (localeCompare (updatedAt a) (updatedAt b) <= 0)%Z.

(** The list [upsertLongTerm] writes. *)
Definition kept (e : MemoryEntry) (es : list MemoryEntry) : list MemoryEntry :=
  slice_from (- MAX_FACTS) (sort_by_updatedAt localeCompare (upsert_entry e es)).

(** Every call of the sequence is well-formed in the state it finds. *)
Fixpoint wf_run (s : Store) (ops : list Op) : Prop :=
  match ops with
  | [] => True
  | op :: ops' =>
      wf_op s op /\ wf_run (step MAX_SHORT_TERM MAX_FACTS localeCompare s op) ops'
  end.

(** The calls in turn: the entries returned and the store after the last. *)
Fixpoint save_all (reqs : list SaveRequest) (s : Store) : list MemoryEntry * Store :=
  match reqs with
  | [] => ([], s)
  | q :: qs =>
      let r := save MAX_FACTS localeCompare (rq_clk q) (rq_rnd q) (rq_content q)
                    (rq_options q) s in
      let rs := save_all qs (snd r) in
      (fst r :: fst rs, snd rs)
  end.




End Calls.

(** ** Search *)

(** ASCII letters without case, as SQLite's [LIKE] compares them. *)
Definition fold_case (c : char) : char :=
  if ((65 <=? c) && (c <=? 90))%N then (c + 32)%N else c.

(** [f] holds of some suffix of [t]. *)
Fixpoint any_suffix (f : str -> bool) (t : str) : bool :=
  f t || match t with [] => false | _ :: t' => any_suffix f t' end.

(** The surrogates of UTF-16. *)
Definition is_high_surrogate (c : char) : bool := ((55296 <=? c) && (c <=? 56319))%N.

Definition is_low_surrogate (c : char) : bool := ((56320 <=? c) && (c <=? 57343))%N.

(** The characters of the UTF-8 text that a string becomes when it is bound
    to a statement: a surrogate pair is one character, an unpaired
    surrogate is written as U+FFFD. *)
Fixpoint code_points (s : str) : list N :=
  match s with
  | [] => []
  | c :: s' =>
      if is_high_surrogate c then
        match s' with
        | d :: s'' =>
            if is_low_surrogate d
            then (65536 + (c - 55296) * 1024 + (d - 56320))%N :: code_points s''
            else 65533%N :: code_points s'
        | [] => [65533%N]
        end
      else if is_low_surrogate c then 65533%N :: code_points s'
      else c :: code_points s'
  end.

(** The string has no unpaired surrogate: UTF-8 stores it unchanged. *)
Fixpoint well_formed_utf16 (s : str) : bool :=
  match s with
  | [] => true
  | c :: s' =>
      if is_high_surrogate c then
        match s' with
        | d :: s'' => is_low_surrogate d && well_formed_utf16 s''
        | [] => false
        end
      else negb (is_low_surrogate c) && well_formed_utf16 s'
  end.

(** The bytes of one character in UTF-8, and of a string. *)
Definition utf8_width (c : N) : Z :=
  if (c <? 128)%N then 1 else if (c <? 2048)%N then 2
  else if (c <? 65536)%N then 3 else 4.

Definition utf8_length (s : str) : Z :=
  fold_right (fun c n => (utf8_width c + n)%Z) 0%Z (code_points s).

(** What [LIKE] reads of a text value: the characters before its first
    U+0000. *)
Fixpoint c_string (l : list N) : list N :=
  match l with
  | [] => []
  | c :: l' => if N.eqb c 0 then [] else c :: c_string l'
  end.

Definition sqlite_text (s : str) : list N := c_string (code_points s).

(** The matching of SQLite's [LIKE] without [ESCAPE], on characters: [%]
    matches any sequence of characters, [_] any one character, every other
    character itself up to the case of ASCII letters. *)
Fixpoint like_chars (p t : list N) : bool :=
  match p with
  | [] => is_empty t
  | c :: p' =>
      if N.eqb c 37 then any_suffix (like_chars p') t
      else match t with
           | [] => false
           | d :: t' =>
               (N.eqb c 95 || N.eqb (fold_case c) (fold_case d)) && like_chars p' t'
           end
  end.

(** [text LIKE pattern] on two text values. *)
Definition like (p t : str) : bool := like_chars (sqlite_text p) (sqlite_text t).



(** [LIMIT ?]: a negative limit is no limit. *)
Definition sql_limit {A} (n : Z) (l : list A) : list A :=
  if (n <? 0)%Z then l else firstn (Z.to_nat n) l.

(** The [limit] argument of [search], a JavaScript number: an integer, or
    a number that is none (a fraction, [NaN], an infinity). *)
Inductive Limit : Type :=
| integer (n : Z)
| not_an_integer.

(** A JavaScript number is accepted for [LIMIT ?] when it is an integer
    that lies strictly between -2^63 and 2^63; otherwise the statement
    throws (datatype mismatch). *)
Definition limit_binds (limit : Limit) : bool :=
  match limit with
  | integer n => ((- 2 ^ 63 <? n) && (n <? 2 ^ 63))%Z
  | not_an_integer => false
  end.

(** SQLite's bound on the bytes of a [LIKE] pattern. *)
Definition SQLITE_MAX_LIKE_PATTERN_LENGTH : Z := 50000.

(** The statement [SELECT ... FROM memory_fts WHERE content LIKE ? OR tags
    LIKE ? LIMIT ?] run with [(p, p, limit)]: the rows in rowid order, or
    [None] when the statement throws.  [LIKE] refuses a pattern of more
    than 50000 bytes at the first row it is evaluated on; no row is
    evaluated when the table is empty or the limit is 0. *)
Definition like_statement (p : str) (limit : Limit) (rows : list Row)
    : option (list Row) :=
  match limit with
  | not_an_integer => None
  | integer n =>
      if negb (limit_binds limit) then None
      else if (SQLITE_MAX_LIKE_PATTERN_LENGTH <? utf8_length p)%Z
              && negb (is_empty rows) && negb (n =? 0)%Z
      then None
      else Some (sql_limit n
                   (filter (fun r => like p (r_content r) || like p (r_tags r)) rows))
  end.

(** The object literal [entry] that [search] makes of a row. *)
Definition entry_of_row (r : Row) : MemoryEntry :=
  {| id := r_id r; type := r_type r; content := r_content r;
     tags := if is_empty (r_tags r) then [] else split (lit " ") (r_tags r);
     source := r_source r; createdAt := r_created_at r; updatedAt := r_updated_at r |}.

Section Search.

(** JavaScript numbers, [Math.abs] and the literal [1]. *)
Variable number : Type.
Variable number_abs : number -> number.
Variable number_one : number.

Record SearchResult := mkResult {
  entry : MemoryEntry;
  score : number;
  snippet : str
}.

(** The [MATCH] statement of [search] run with [(query, limit)] on the
    table: the rows with their [bm25] score and their [snippet] ([None] for
    [NULL]), or [None] when the statement throws, as it does when FTS5
    rejects the query. *)
Variable fts5_match : str -> Limit -> list Row -> option (list (Row * number * option str)).

Definition match_result (x : Row * number * option str) : SearchResult :=
  let '(r, sc, sn) := x in
  mkResult (entry_of_row r) (number_abs sc)
           (match sn with Some t => t | None => firstn 120 (r_content r) end).

Definition like_result (r : Row) : SearchResult :=
  mkResult (entry_of_row r) number_one (firstn 120 (r_content r)).

(** [search(query, limit)]; [None]: the call throws (nothing catches what
    the statement of the fallback throws). *)
Definition search (query : str) (limit : Limit) (s : Store)
    : option (list SearchResult) :=
  if is_empty (trim query) then Some []
  else
    match fts5_match query limit (memory_fts s) with
    | Some rows => Some (map match_result rows)
    | None =>
        let p := lit "%" ++ query ++ lit "%" in
        match like_statement p limit (memory_fts s) with
        | Some likeRows => Some (map like_result likeRows)
        | None => None
        end
    end.

End Search.


(** ** Context injection *)

(** A length in a template literal: its decimal digits. *)
Definition decimal (n : nat) : str :=
  lit (DecimalString.NilZero.string_of_uint (Nat.to_uint n)).

(** One element of [lines] in [getShortTermSummary]. *)
Definition summary_line (m : ShortTermMessage) : str :=
  lit "[" ++ role m ++ lit "]: " ++ firstn 200 (msg_content m).

(** [getShortTermSummary()]. *)
Definition getShortTermSummary (s : Store) : str :=
  match shortTerm s with
  | [] => []
  | _ :: _ =>
      let lines := map summary_line (slice_from (-10) (shortTerm s)) in
      lit "Recent conversation (last " ++ decimal (length lines) ++ lit " turns):"
      ++ [nl] ++ join [nl] lines
  end.

Section Context.

Variable number : Type.
Variable number_abs : number -> number.
Variable number_one : number.
Variable fts5_match : str -> Limit -> list Row -> option (list (Row * number * option str)).

(** The line [buildContextBlock] makes of one search result. *)
Definition memory_line (r : SearchResult number) : str :=
  lit "- [" ++ type (entry number r) ++ lit "] "
  ++ firstn 150 (hd [] (split [nl] (content (entry number r))))
  ++ lit " _(tags: " ++ join (lit ", ") (tags (entry number r)) ++ lit ")_".

(** The block made of the results of the search and the summary of the
    window. *)
Definition context_block (results : list (SearchResult number)) (s : Store) : str :=
  let memories :=
    match results with
    | [] => []
    | _ :: _ => lit "## Relevant Long-Term Memories" :: map memory_line results
    end in
  let st := getShortTermSummary s in
  let parts := memories ++ (if is_empty st then [] else [lit "## Recent Context"; st]) in
  match parts with
  | [] => []
  | _ :: _ =>
      [nl; nl] ++ lit "<memory>" ++ [nl] ++ join [nl; nl] parts ++ [nl]
      ++ lit "</memory>" ++ [nl]
  end.

(** [buildContextBlock(query?)]; the query [None] is an absent query; the
    result [None]: the call throws what [search] throws. *)
Definition buildContextBlock (query : option str) (s : Store) : option str :=
  match query with
  | Some (c :: q) =>
      match search number number_abs number_one fts5_match (c :: q) (integer 5) s with
      | Some results => Some (context_block results s)
      | None => None
      end
  | _ => Some (context_block [] s)
  end.

End Context.

(** ** The memory tools

    [executeMemoryTool] of [memory-tools.ts]: the case [memory_list], up to
    the object it hands to [JSON.stringify]. *)

Record ListedEntry := mkListed {
  l_id : str;
  l_type : str;
  l_tags : list str;
  l_preview : str;
  l_updatedAt : str
}.

Record ListReply := mkReply {
  l_success : bool;
  l_total : nat;
  l_shown : nat;
  l_entries : list ListedEntry
}.

(** [arg_type] is [args.type], [arg_limit] an integer [args.limit]; [None]
    is an absent property. *)
Definition memory_list (now : str) (arg_type : option str) (arg_limit : option Z)
    (s : Store) : ListReply :=
  let all := readAllEntries now s in
  let filtered :=
    match arg_type with
    | Some (c :: t) => filter (fun e => str_eqb (type e) (c :: t)) all
    | _ => all
    end in
  let limited :=
    slice_from (- match arg_limit with Some l => l | None => 20 end)%Z filtered in
  mkReply true (length all) (length limited)
    (map (fun e => mkListed (id e) (type e) (tags e) (firstn 120 (content e)) (updatedAt e))
         limited).

(** ** Concrete values *)

(** The order of code units: an instance of [localeCompare].  Every
    collation orders ISO timestamps of one format this way. *)
Fixpoint compareCodeUnits (a b : str) : Z :=
  match a, b with
  | [], [] => 0
  | [], _ :: _ => -1
  | _ :: _, [] => 1
  | x :: a', y :: b' =>
      if N.eqb x y then compareCodeUnits a' b'
      else if N.ltb x y then -1 else 1
  end%Z.

Definition ts (d : string) : str := lit "2026-01-" ++ lit d ++ lit "T09:00:00.000Z".

(** A clock that reads the same instant at every site of a call. *)
Definition at_time (t : str) : Clock := fun _ => t.

Definition fact_options (i : string) : SaveOptions :=
  mkOpts (Some (lit i)) (Some (lit "fact")) (Some [lit "note"]) (Some (lit "user")).

Definition log_options (i : string) : SaveOptions :=
  mkOpts (Some (lit i)) (Some (lit "log")) (Some [lit "note"]) (Some (lit "user")).

(** Options without tags: [save] takes the empty list. *)
Definition untagged_options (i : string) : SaveOptions :=
  mkOpts (Some (lit i)) (Some (lit "fact")) None (Some (lit "user")).

Definition sample_entry : MemoryEntry :=
  mkEntry (lit "m1") (lit "fact") (lit "  likes tea ") [lit "drinks"; lit "user pref"]
          (ts "01") (ts "02") (lit "user").

(** An entry whose content has a line that is the block terminator. *)
Definition ruled_entry : MemoryEntry :=
  mkEntry (lit "m1") (lit "fact") (lit "above" ++ [nl] ++ lit "---" ++ [nl] ++ lit "below")
          [lit "drinks"] (ts "01") (ts "02") (lit "user").

(** An entry without tags, as [save] builds it when no tags are given. *)
Definition untagged_entry : MemoryEntry :=
  mkEntry (lit "m1") (lit "fact") (lit "likes tea") [] (ts "01") (ts "02") (lit "user").

Definition three_messages : list ShortTermMessage :=
  [ mkMsg (lit "user") (lit "one") 1; mkMsg (lit "assistant") (lit "two") 2;
    mkMsg (lit "user") (lit "three") 3 ].

Definition two_logs_one_id : list Op :=
  [ OpSave (at_time (ts "01")) (lit "u1") (lit "first note") (log_options "L1");
    OpSave (at_time (ts "02")) (lit "u2") (lit "second note") (log_options "L1") ].

Definition two_facts_one_id : list Op :=
  [ OpSave (at_time (ts "01")) (lit "u1") (lit "likes tea") (fact_options "F1");
    OpSave (at_time (ts "02")) (lit "u2") (lit "likes coffee") (fact_options "F1");
    OpForget (at_time (ts "03")) (lit "F2");
    OpFlush (at_time (ts "04")) (lit "u3") None ].

Definition request (d i content : string) : SaveRequest :=
  mkReq (at_time (ts d)) (lit "u0") (lit content) (fact_options i).

Definition two_facts_and_a_blank : list SaveRequest :=
  [ request "01" "F1" "likes tea"; request "02" "F2" "likes coffee";
    request "03" "F3" "   " ].


(** A clock that advances by a second from one reading to the next. *)
Definition ticking (d : string) : Clock :=
  fun k => lit "2026-01-" ++ lit d ++ lit "T09:00:0" ++ decimal k ++ lit ".000Z".

(** Calls of [save] without tags, as the tool [memory_save] makes them when
    no tags are given. *)
Definition untagged_request (d i content : string) : SaveRequest :=
  mkReq (ticking d) (lit "u0") (lit content) (untagged_options i).

Definition three_untagged_facts : list SaveRequest :=
  [ untagged_request "01" "F1" "likes tea"; untagged_request "02" "F2" "likes coffee";
    untagged_request "03" "F3" "likes cocoa" ].

Definition log_then_two_facts : list Op :=
  [ OpSave (at_time (ts "01")) (lit "u1") (lit "daily note") (log_options "K1");
    OpSave (at_time (ts "02")) (lit "u2") (lit "likes tea") (fact_options "K1");
    OpSave (at_time (ts "03")) (lit "u3") (lit "likes tea") (fact_options "K1") ].

(** A content that holds a terminator line and, after it, the lines of a
    second record under the same id. *)
Definition two_records_in_one_content : str :=
  lit "first" ++ [nl] ++ lit "---" ++ [nl] ++ lit "id: F1" ++ [nl]
  ++ lit "tags: note" ++ [nl] ++ [nl] ++ lit "second".


Definition store_with_two_records_under_one_id : Store :=
  snd (save 200 compareCodeUnits (at_time (ts "01")) (lit "u1")
            two_records_in_one_content (fact_options "F1") empty_store).

Definition store_with_one_fact : Store :=
  snd (save 200 compareCodeUnits (at_time (ts "01")) (lit "u1") (lit "likes tea")
            (fact_options "F1") empty_store).

Definition the_one_fact : MemoryEntry :=
  mkEntry (lit "F1") (lit "fact") (lit "likes tea") [lit "note"] (ts "01") (ts "01")
          (lit "user").

(** The full-text query of the examples rejects every query that holds a
    double quote or a percent sign, and finds nothing otherwise. *)
Definition sample_fts5 (query : str) (limit : Limit) (rows : list Row)
    : option (list (Row * Z * option str)) :=
  if existsb (fun c => N.eqb c 34 || N.eqb c 37) query then None else Some [].


Definition row_1000 : Row :=
  mkRow (lit "F1") (lit "fact") (lit "1000 items in stock") (lit "shop")
        (lit "user") (ts "01") (ts "01").






Definition three_fact_saves : list Op :=
  [ OpSave (at_time (ts "02")) (lit "u1") (lit "likes tea") (fact_options "F1");
    OpSave (at_time (ts "03")) (lit "u2") (lit "likes coffee") (fact_options "F2");
    OpSave (at_time (ts "04")) (lit "u3") (lit "likes cocoa") (fact_options "F3") ].

(** * Properties of the string primitives *)

Lemma str_eqb_eq (a b : str) : str_eqb a b = true <-> a = b.
Proof.
  revert b; induction a as [|x a IH]; intros [|y b]; simpl; split; try easy.
  - rewrite andb_true_iff, N.eqb_eq, IH. intros [-> ->]; reflexivity.
  - intros [= -> ->]. rewrite N.eqb_refl. simpl. apply IH. reflexivity.
Qed.

Lemma str_eqb_refl (a : str) : str_eqb a a = true.
Proof. apply str_eqb_eq; reflexivity. Qed.

Lemma str_eqb_neq (a b : str) : str_eqb a b = false <-> a <> b.
Proof.
  destruct (str_eqb a b) eqn:E; split; try easy.
  - apply str_eqb_eq in E. intros; contradiction.
  - intros _ H. apply str_eqb_eq in H. congruence.
Qed.

Lemma str_eqb_sym (a b : str) : str_eqb a b = str_eqb b a.
Proof.
  destruct (str_eqb b a) eqn:E.
  - apply str_eqb_eq in E; subst. apply str_eqb_refl.
  - apply str_eqb_neq. apply str_eqb_neq in E. congruence.
Qed.

Lemma is_lt_ws c : is_lt c = true -> is_ws c = true.
Proof. unfold is_ws. intros ->. reflexivity. Qed.

Lemma is_lt_not_dash c : is_lt c = true -> N.eqb c dash = false.
Proof.
  unfold is_lt, dash. intros H. apply N.eqb_neq. intros ->. discriminate H.
Qed.

Lemma is_key_char_not_ws c : is_key_char c = true -> is_ws c = false.
Proof.
  unfold is_key_char, is_ws, is_lt. intros H.
  repeat rewrite orb_true_iff in H. repeat rewrite andb_true_iff in H.
  repeat rewrite N.leb_le in H. rewrite N.eqb_eq in H.
  repeat (apply orb_false_iff; split); try apply andb_false_iff;
    try (apply N.eqb_neq; lia).
  destruct (N.leb_spec 8192 c); [right|left; reflexivity].
  apply N.leb_gt. lia.
Qed.

(** *** trim *)

Lemma trimEnd_blank s : forallb is_ws s = true -> trimEnd s = [].
Proof.
  induction s as [|c s IH]; simpl; auto.
  rewrite andb_true_iff. intros [Hc Hs]. rewrite IH, Hc; auto.
Qed.

Lemma trimEnd_app a b : trimEnd b <> [] -> trimEnd (a ++ b) = a ++ trimEnd b.
Proof.
  intros Hb. induction a as [|c a IH]; simpl; auto.
  rewrite IH. destruct (a ++ trimEnd b) eqn:E.
  - apply app_eq_nil in E. tauto.
  - simpl. rewrite andb_false_r. reflexivity.
Qed.

Lemma trimEnd_app_blank a b : forallb is_ws b = true -> trimEnd (a ++ b) = trimEnd a.
Proof.
  intros Hb. induction a as [|c a IH]; simpl.
  - apply trimEnd_blank; assumption.
  - rewrite IH. reflexivity.
Qed.

Lemma trimEnd_split s : exists t, s = trimEnd s ++ t /\ forallb is_ws t = true.
Proof.
  induction s as [|c s (t & E & Ht)]; simpl.
  - exists []. auto.
  - destruct (is_ws c) eqn:Hc; simpl.
    + destruct (trimEnd s) eqn:Es; simpl.
      * exists (c :: t). simpl in E. subst t. simpl. rewrite Hc, Ht. auto.
      * exists t. split; auto. rewrite E at 1. reflexivity.
    + exists t. split; auto. rewrite E at 1. reflexivity.
Qed.

Lemma trimEnd_idem s : trimEnd (trimEnd s) = trimEnd s.
Proof.
  induction s as [|c s IH]; simpl; auto.
  destruct (is_ws c && is_empty (trimEnd s)) eqn:E; simpl; auto.
  rewrite IH, E. reflexivity.
Qed.

Lemma trimStart_length s : length (trimStart s) <= length s.
Proof.
  induction s as [|c s IH]; simpl; auto.
  destruct (is_ws c); simpl; lia.
Qed.

Lemma trimEnd_length s : length (trimEnd s) <= length s.
Proof.
  induction s as [|c s IH]; simpl; auto.
  destruct (is_ws c && is_empty (trimEnd s)); simpl; lia.
Qed.

Lemma trim_cons_ws c s : is_ws c = true -> trim (c :: s) = trim s.
Proof.
  intros Hc. unfold trim. simpl. rewrite Hc. simpl.
  destruct (trimEnd s) eqn:E; simpl; auto. rewrite Hc. reflexivity.
Qed.

Lemma trim_app_blank a b : forallb is_ws b = true -> trim (a ++ b) = trim a.
Proof. intros H. unfold trim. rewrite trimEnd_app_blank; auto. Qed.

Lemma trim_idem s : trim (trim s) = trim s.
Proof.
  unfold trim.
  assert (G : forall r, trimEnd r = r -> trimEnd (trimStart r) = trimStart r).
  { induction r as [|c r IH]; simpl; auto.
    destruct (is_ws c) eqn:Hc; simpl.
    - destruct (is_empty (trimEnd r)) eqn:Er; [discriminate|].
      intros [= E]. auto.
    - rewrite Hc. simpl. auto. }
  rewrite G by apply trimEnd_idem.
  assert (K : forall r, trimStart (trimStart r) = trimStart r).
  { induction r as [|c r IH]; simpl; auto.
    destruct (is_ws c) eqn:Hc; simpl; auto. rewrite Hc. reflexivity. }
  apply K.
Qed.

(** A string that [trim] leaves alone has no blank at either end. *)
Lemma trim_fix_End v : trim v = v -> trimEnd v = v.
Proof.
  intros H. destruct (trimEnd_split v) as (t & E & _).
  assert (L : length (trimEnd v) = length v).
  { pose proof (trimEnd_length v). pose proof (trimStart_length (trimEnd v)).
    unfold trim in H. rewrite H in *. lia. }
  rewrite E in L at 2. rewrite length_app in L.
  destruct t; [|simpl in L; lia]. rewrite app_nil_r in E. congruence.
Qed.

Lemma trim_fix_Start v : trim v = v -> trimStart v = v.
Proof.
  intros H. pose proof (trim_fix_End v H) as E. unfold trim in H. congruence.
Qed.

Lemma trimStart_fix_hd c v : trimStart (c :: v) = c :: v -> is_ws c = false.
Proof.
  simpl. destruct (is_ws c); auto. intros H.
  pose proof (trimStart_length v). rewrite H in *. simpl in *. lia.
Qed.

Lemma trimStart_hd c v : is_ws c = false -> trimStart (c :: v) = c :: v.
Proof. simpl. intros ->. reflexivity. Qed.

Lemma trim_nonblank s : trim s <> [] <-> existsb (fun c => negb (is_ws c)) s = true.
Proof.
  unfold trim. induction s as [|c s IH]; simpl.
  - split; [congruence|discriminate].
  - destruct (is_ws c) eqn:Hc; simpl.
    + destruct (trimEnd s) eqn:E; simpl in *; [exact IH|].
      rewrite Hc. exact IH.
    + rewrite Hc. split; [auto|discriminate].
Qed.

(** *** split and join *)

Lemma join_cons sep x l : l <> [] -> join sep (x :: l) = x ++ sep ++ join sep l.
Proof. destruct l; [congruence|reflexivity]. Qed.

Lemma join_cons_hd sep c p ps : join sep ((c :: p) :: ps) = c :: join sep (p :: ps).
Proof. destruct ps; reflexivity. Qed.

Lemma join_app_last sep l x :
  l <> [] -> join sep (l ++ [x]) = join sep l ++ sep ++ x.
Proof.
  induction l as [|y l IH]; [congruence|]. intros _.
  destruct l as [|z l].
  - reflexivity.
  - change ((y :: z :: l) ++ [x]) with (y :: ((z :: l) ++ [x])).
    rewrite join_cons by (simpl; congruence).
    rewrite IH by congruence.
    change (join sep (y :: z :: l)) with (y ++ sep ++ join sep (z :: l)).
    rewrite <- !app_assoc. reflexivity.
Qed.

Lemma startsWith_app p r : startsWith p (p ++ r) = true.
Proof. induction p; simpl; auto. rewrite N.eqb_refl. auto. Qed.

Lemma startsWith_true p s : startsWith p s = true -> s = p ++ skipn (length p) s.
Proof.
  revert s; induction p as [|x p IH]; intros s; simpl; auto.
  destruct s as [|y s]; [discriminate|].
  rewrite andb_true_iff, N.eqb_eq. intros [-> H]. f_equal. auto.
Qed.

Lemma split_aux_skip sep k s :
  k <= length s -> split_aux sep k s = split_aux sep 0 (skipn k s).
Proof.
  revert k; induction s as [|c s IH]; intros [|k]; simpl; auto; try lia.
  intros H. apply IH. lia.
Qed.

Lemma split_nil sep : split sep [] = [[]].
Proof. reflexivity. Qed.

(** The two equations of [split]: at a separator, and elsewhere. *)
Lemma split_at_sep sep r : sep <> [] -> split sep (sep ++ r) = [] :: split sep r.
Proof.
  intros Hs. destruct sep as [|c sep]; [congruence|].
  unfold split. simpl app. cbn [split_aux].
  change (startsWith (c :: sep) (c :: sep ++ r)) with (startsWith (c :: sep) ((c :: sep) ++ r)).
  rewrite startsWith_app.
  replace (length (c :: sep) - 1) with (length sep) by (simpl; lia).
  rewrite split_aux_skip by (rewrite length_app; lia).
  rewrite skipn_app, skipn_all, Nat.sub_diag. simpl.
  destruct (split_aux (c :: sep) 0 r). reflexivity.
Qed.

Lemma split_elsewhere sep c s :
  startsWith sep (c :: s) = false ->
  split sep (c :: s) =
  match split sep s with p :: ps => (c :: p) :: ps | [] => [] end.
Proof.
  intros H. unfold split. cbn [split_aux]. rewrite H.
  destruct (split_aux sep 0 s). reflexivity.
Qed.

Lemma split_not_nil sep s : split sep s <> [].
Proof. unfold split. destruct (split_aux sep 0 s). congruence. Qed.

Lemma join_split sep s : sep <> [] -> join sep (split sep s) = s.
Proof.
  intros Hs.
  assert (G : forall s k, k <= length s ->
             join sep (let (p, ps) := split_aux sep k s in p :: ps) = skipn k s).
  { clear s. induction s as [|c s IH]; intros k Hk.
    - simpl in Hk. assert (k = 0) by lia. subst. reflexivity.
    - destruct k as [|k]; cbn [split_aux skipn].
      + destruct (startsWith sep (c :: s)) eqn:E.
        * pose proof (startsWith_true _ _ E) as F.
          destruct sep as [|x sep]; [congruence|].
          simpl in F. injection F as <- F.
          assert (L : length sep <= length s).
          { rewrite F, length_app. lia. }
          specialize (IH (length sep) L).
          replace (length (c :: sep) - 1) with (length sep) by (simpl; lia).
          destruct (split_aux (c :: sep) (length sep) s) as [p ps].
          rewrite join_cons by congruence. rewrite IH. simpl. f_equal. auto.
        * specialize (IH 0 (Nat.le_0_l _)).
          destruct (split_aux sep 0 s) as [p ps].
          change (join sep (p :: ps) = s) in IH.
          change (join sep ((c :: p) :: ps) = c :: s).
          rewrite join_cons_hd, IH. reflexivity.
      + apply IH. simpl in Hk. lia. }
  apply (G s 0). lia.
Qed.

(** Splitting at a single character. *)
Lemma split1_sep c s : split [c] (c :: s) = [] :: split [c] s.
Proof. apply (split_at_sep [c] s). congruence. Qed.

Lemma split1_other c x s :
  N.eqb c x = false ->
  split [c] (x :: s) = match split [c] s with p :: ps => (x :: p) :: ps | [] => [] end.
Proof. intros H. apply split_elsewhere. simpl. rewrite H. reflexivity. Qed.

Lemma split1_none c s :
  forallb (fun x => negb (N.eqb c x)) s = true -> split [c] s = [s].
Proof.
  induction s as [|x s IH]; simpl; [reflexivity|].
  rewrite andb_true_iff, negb_true_iff. intros [Hx Hs].
  rewrite split1_other, IH; auto.
Qed.

Lemma split1_app c a b :
  forallb (fun x => negb (N.eqb c x)) a = true ->
  split [c] (a ++ c :: b) = a :: split [c] b.
Proof.
  induction a as [|x a IH]; simpl.
  - intros _. apply split1_sep.
  - rewrite andb_true_iff, negb_true_iff. intros [Hx Ha].
    rewrite split1_other, IH; auto.
Qed.

Lemma split1_lines c ls x :
  Forall (fun l => forallb (fun y => negb (N.eqb c y)) l = true) ls ->
  split [c] (join [c] (ls ++ [x])) = ls ++ split [c] x.
Proof.
  induction 1 as [|l ls Hl _ IH]; simpl app; [reflexivity|].
  rewrite join_cons by (destruct ls; simpl; congruence).
  simpl app. rewrite split1_app, IH; auto.
Qed.

Lemma existsb_split1 (P : char -> bool) c s :
  P c = false -> existsb P (join [] (split [c] s)) = existsb P s.
Proof.
  intros Hc. induction s as [|x s IH]; [reflexivity|].
  destruct (N.eqb c x) eqn:E.
  - apply N.eqb_eq in E; subst x. rewrite split1_sep.
    rewrite join_cons by apply split_not_nil. cbn [app existsb].
    rewrite Hc, IH. reflexivity.
  - rewrite split1_other by assumption.
    destruct (split [c] s) as [|p ps] eqn:F.
    + exfalso. revert F. apply split_not_nil.
    + rewrite join_cons_hd. cbn [existsb]. rewrite IH. reflexivity.
Qed.

(** The separator ": " after a metadata key. *)
Lemma split_key_line key v :
  forallb is_key_char key = true ->
  split (lit ": ") (key ++ lit ": " ++ v) = key :: split (lit ": ") v.
Proof.
  induction key as [|k key IH].
  - intros _. apply (split_at_sep (lit ": ") v). discriminate.
  - simpl forallb. rewrite andb_true_iff. intros [Hk Hkey].
    change ((k :: key) ++ lit ": " ++ v) with (k :: (key ++ lit ": " ++ v)).
    rewrite split_elsewhere, IH; auto.
    change (lit ": ") with [58%N; 32%N]. cbn [startsWith].
    destruct (N.eqb_spec 58 k); [subst; discriminate Hk|reflexivity].
Qed.

Lemma skip_key_line key r :
  forallb is_key_char key = true -> skip_key (key ++ 58%N :: r) = 58%N :: r.
Proof.
  induction key as [|k key IH]; simpl; auto.
  rewrite andb_true_iff. intros [-> H]. auto.
Qed.

Lemma is_meta_line_key key v :
  key <> [] -> forallb is_key_char key = true ->
  is_meta_line (key ++ lit ": " ++ v)
  = negb (is_empty v) && forallb (fun x => negb (is_lt x)) v.
Proof.
  intros Hk Hkey. destruct key as [|k key]; [congruence|].
  change (lit ": " ++ v) with (58%N :: 32%N :: v).
  simpl in Hkey. apply andb_true_iff in Hkey. destruct Hkey as [Hk0 Hkey].
  unfold is_meta_line. cbn [app skip_key]. rewrite Hk0.
  rewrite skip_key_line by assumption. reflexivity.
Qed.

(** *** The block separator *)

Lemma split_blocks_pieces raw : split_blocks raw = pieces true raw.
Proof. reflexivity. Qed.

Lemma pieces_nil bol : pieces bol [] = [[]].
Proof. reflexivity. Qed.

Lemma pieces_not_nil bol s : pieces bol s <> [].
Proof. unfold pieces. destruct (split_blocks_aux bol s). congruence. Qed.

Lemma pieces_sep rest :
  match rest with [] => true | d :: _ => is_lt d end = true ->
  pieces true (dash :: dash :: dash :: rest) = [] :: pieces false rest.
Proof.
  intros H. unfold pieces. cbn [split_blocks_aux sep_here andb].
  rewrite !N.eqb_refl, H. cbn [andb].
  destruct (split_blocks_aux false rest). reflexivity.
Qed.

Lemma pieces_other bol c s :
  bol && sep_here (c :: s) = false ->
  pieces bol (c :: s) =
  match pieces (is_lt c) s with p :: ps => (c :: p) :: ps | [] => [] end.
Proof.
  intros H. unfold pieces. cbn [split_blocks_aux]. rewrite H.
  destruct (split_blocks_aux (is_lt c) s). reflexivity.
Qed.

Lemma sep_here_lt_hd l s : is_lt l = true -> sep_here (l :: s) = false.
Proof.
  intros H. destruct s as [|b [|c r]]; simpl; auto.
  rewrite (is_lt_not_dash l H). reflexivity.
Qed.

Lemma sep_here_app_lt s l r :
  s <> [] -> is_lt l = true -> sep_here (s ++ l :: r) = sep_here s.
Proof.
  intros Hs Hl. pose proof (is_lt_not_dash l Hl) as Hd.
  destruct s as [|a [|b [|c [|d s]]]]; try congruence; simpl.
  - destruct r; auto. rewrite Hd, andb_false_r. reflexivity.
  - rewrite Hd, andb_false_r. reflexivity.
  - rewrite Hl. reflexivity.
  - reflexivity.
Qed.

Lemma pieces_lt_hd bol l s :
  is_lt l = true ->
  pieces bol (l :: s) = match pieces true s with p :: ps => (l :: p) :: ps | [] => [] end.
Proof.
  intros H. rewrite pieces_other.
  - rewrite H. reflexivity.
  - rewrite sep_here_lt_hd by assumption. apply andb_false_r.
Qed.

(** A text without separator is one piece, whatever follows its line. *)
Lemma pieces_line c : forall bol l r,
  has_sep bol c = false -> is_lt l = true ->
  pieces bol (c ++ l :: r) =
  match pieces true r with p :: ps => (c ++ l :: p) :: ps | [] => [] end.
Proof.
  induction c as [|a c IH]; intros bol l r Hc Hl.
  - apply pieces_lt_hd. assumption.
  - cbn [has_sep] in Hc. apply orb_false_iff in Hc. destruct Hc as [H1 H2].
    change ((a :: c) ++ l :: r) with (a :: (c ++ l :: r)).
    rewrite pieces_other.
    + rewrite (IH _ _ _ H2 Hl). destruct (pieces true r); reflexivity.
    + change (a :: c ++ l :: r) with ((a :: c) ++ l :: r).
      rewrite sep_here_app_lt by (congruence || assumption). assumption.
Qed.

Lemma has_sep_app_lt c : forall bol l r,
  is_lt l = true -> has_sep bol (c ++ l :: r) = has_sep bol c || has_sep true r.
Proof.
  induction c as [|a c IH]; intros bol l r Hl.
  - cbn [app has_sep]. rewrite sep_here_lt_hd, Hl by assumption.
    rewrite andb_false_r. reflexivity.
  - change ((a :: c) ++ l :: r) with (a :: (c ++ l :: r)). cbn [has_sep].
    rewrite IH by assumption.
    change (a :: c ++ l :: r) with ((a :: c) ++ l :: r).
    rewrite sep_here_app_lt by (congruence || assumption).
    rewrite orb_assoc. reflexivity.
Qed.

Lemma has_sep_no_lt s : no_lt s = true -> has_sep false s = false.
Proof.
  induction s as [|c s IH]; simpl; auto.
  rewrite andb_true_iff, negb_true_iff. intros [-> H]. auto.
Qed.

Lemma has_sep_one_line c s :
  N.eqb c dash = false -> no_lt (c :: s) = true -> has_sep true (c :: s) = false.
Proof.
  intros Hc H. simpl in H. apply andb_true_iff in H. destruct H as [H1 H2].
  apply negb_true_iff in H1.
  cbn [has_sep]. rewrite H1, (has_sep_no_lt s H2).
  destruct s as [|b [|d r]]; simpl; auto. rewrite Hc. reflexivity.
Qed.

Lemma has_sep_empty_line r : has_sep true (nl :: r) = has_sep true r.
Proof. apply (has_sep_app_lt [] true nl r). reflexivity. Qed.

Lemma ends_lt_inv a : ends_lt a = true -> exists s l, a = s ++ [l] /\ is_lt l = true.
Proof.
  induction a as [|c a IH]; [discriminate|].
  destruct a as [|d a].
  - intros H. exists [], c. auto.
  - intros H. destruct (IH H) as (s & l & E & Hl).
    exists (c :: s), l. rewrite E. auto.
Qed.

Lemma ends_lt_app a l : is_lt l = true -> ends_lt (a ++ [l]) = true.
Proof.
  intros Hl. induction a as [|c a IH]; simpl; auto.
  destruct (a ++ [l]) eqn:E; auto. apply app_eq_nil in E. destruct E. discriminate.
Qed.

Lemma sep_here_ends_lt a r : ends_lt a = true -> sep_here (a ++ r) = sep_here a.
Proof.
  intros H. destruct (ends_lt_inv a H) as (s & l & -> & Hl).
  rewrite <- app_assoc. cbn [app].
  destruct s as [|x s].
  - cbn [app]. rewrite !sep_here_lt_hd by assumption. reflexivity.
  - rewrite !sep_here_app_lt by (congruence || assumption). reflexivity.
Qed.

Lemma sep_here_inv s :
  sep_here s = true ->
  exists rest, s = dash :: dash :: dash :: rest
               /\ match rest with [] => true | d :: _ => is_lt d end = true.
Proof.
  destruct s as [|a [|b [|c rest]]]; try discriminate. simpl.
  rewrite !andb_true_iff, !N.eqb_eq. intros [[[-> ->] ->] H].
  exists rest. auto.
Qed.

(** The pieces of a text that ends with a terminator line, and of the same
    text with more after it. *)
Lemma pieces_closed : forall n a bol l,
  length a <= n -> is_lt l = true ->
  (a = [] -> bol = true) -> (a <> [] -> ends_lt a = true) ->
  exists q qs, forall r,
    pieces bol (a ++ dash :: dash :: dash :: l :: r) =
    (q :: qs) ++ match pieces true r with p :: ps => (l :: p) :: ps | [] => [] end.
Proof.
  induction n as [|n IH]; intros a bol l Hn Hl Hb He.
  - destruct a; [|simpl in Hn; lia]. rewrite (Hb eq_refl).
    exists [], []. intros r. cbn [app]. rewrite pieces_sep by exact Hl.
    rewrite pieces_lt_hd by exact Hl. reflexivity.
  - destruct a as [|c a].
    { apply (IH [] bol l); auto. simpl; lia. }
    assert (He' : ends_lt (c :: a) = true) by (apply He; congruence).
    clear He Hb.
    destruct (bol && sep_here (c :: a)) eqn:E.
    + apply andb_true_iff in E. destruct E as [-> E].
      destruct (sep_here_inv _ E) as (rest & F & Hr).
      injection F as -> ->.
      destruct rest as [|d rest]; [discriminate He'|].
      destruct (IH (d :: rest) false l) as (q & qs & G); auto.
      { simpl in Hn |- *. lia. }
      { congruence. }
      exists [], (q :: qs). intros r.
      change ((dash :: dash :: dash :: d :: rest) ++ dash :: dash :: dash :: l :: r)
        with (dash :: dash :: dash :: ((d :: rest) ++ dash :: dash :: dash :: l :: r)).
      rewrite pieces_sep by exact Hr. rewrite G. reflexivity.
    + destruct (IH a (is_lt c) l) as (q & qs & G); auto.
      { simpl in Hn. lia. }
      { intros ->. exact He'. }
      { intros Ha. destruct a; [congruence|exact He']. }
      exists (c :: q), qs. intros r.
      change ((c :: a) ++ dash :: dash :: dash :: l :: r)
        with (c :: (a ++ dash :: dash :: dash :: l :: r)).
      rewrite pieces_other.
      * rewrite G. reflexivity.
      * change (c :: a ++ dash :: dash :: dash :: l :: r)
          with ((c :: a) ++ dash :: dash :: dash :: l :: r).
        rewrite sep_here_ends_lt by assumption. exact E.
Qed.

Lemma filter_nonempty_trim_app l1 l2 :
  filter (fun b : str => negb (is_empty b)) (map trim (l1 ++ l2))
  = filter (fun b : str => negb (is_empty b)) (map trim l1)
    ++ filter (fun b : str => negb (is_empty b)) (map trim l2).
Proof. rewrite map_app, filter_app. reflexivity. Qed.

(** Parsing distributes over a closed prefix. *)
Lemma parseMemoryMd_app now a r :
  closed a -> parseMemoryMd now (a ++ r) = parseMemoryMd now a ++ parseMemoryMd now r.
Proof.
  intros [->|(a0 & l & -> & Hl & Ha)].
  - reflexivity.
  - destruct (pieces_closed (length a0) a0 true l) as (q & qs & G); auto.
    { intros Hne. destruct Ha; congruence. }
    unfold parseMemoryMd. change split_blocks with (pieces true).
    rewrite <- app_assoc. cbn [app].
    rewrite (G r), (G []). rewrite pieces_nil.
    destruct (pieces true r) as [|p ps] eqn:Er.
    { exfalso. revert Er. apply pieces_not_nil. }
    rewrite !filter_nonempty_trim_app, !flat_map_app.
    assert (E1 : map trim [[l]] = [[]]).
    { unfold trim. simpl. rewrite (is_lt_ws l Hl). reflexivity. }
    assert (E2 : map trim ((l :: p) :: ps) = map trim (p :: ps)).
    { cbn [map]. rewrite (trim_cons_ws l p) by (apply is_lt_ws; exact Hl).
      reflexivity. }
    rewrite E1, E2. cbn [filter is_empty negb flat_map].
    rewrite app_nil_r. reflexivity.
Qed.

(** * The record format *)

Lemma serializeEntry_block e : serializeEntry e = block_text e ++ lit "---".
Proof.
  change (serializeEntry e)
    with (join [nl] ((meta_lines e ++ [[]; content e; []]) ++ [lit "---"])).
  rewrite join_app_last by discriminate.
  unfold block_text. rewrite <- app_assoc. reflexivity.
Qed.

Lemma block_text_eq e :
  block_text e = join [nl] (meta_lines e ++ [[]]) ++ nl :: content e ++ [nl; nl].
Proof.
  unfold block_text.
  change (meta_lines e ++ [[]; content e; []])
    with (((meta_lines e ++ [[]]) ++ [content e]) ++ [[]]).
  rewrite !join_app_last by discriminate.
  rewrite <- !app_assoc. reflexivity.
Qed.

Lemma wf_meta_inv v :
  wf_meta v = true -> v <> [] /\ no_lt v = true /\ trim v = v.
Proof.
  unfold wf_meta. rewrite !andb_true_iff, negb_true_iff, str_eqb_eq.
  intros [[H1 H2] H3]. repeat split; auto. intros ->. discriminate.
Qed.

Lemma wf_meta_hd v : wf_meta v = true -> exists c r, v = c :: r /\ is_ws c = false.
Proof.
  intros H. destruct (wf_meta_inv v H) as (Hne & _ & Ht).
  destruct v as [|c r]; [congruence|]. exists c, r. split; auto.
  apply (trimStart_fix_hd c r). apply trim_fix_Start. exact Ht.
Qed.

Lemma no_lt_no_nl s :
  no_lt s = true -> forallb (fun y => negb (N.eqb nl y)) s = true.
Proof.
  unfold no_lt. induction s as [|c s IH]; cbn [forallb]; auto.
  rewrite !andb_true_iff, !negb_true_iff. intros [H1 H2]. split; auto.
  unfold is_lt in H1. rewrite !orb_false_iff in H1.
  unfold nl. rewrite N.eqb_sym. tauto.
Qed.

Lemma no_lt_app a b : no_lt (a ++ b) = no_lt a && no_lt b.
Proof. apply forallb_app. Qed.

Lemma trim_no_ws s : forallb (fun c => negb (is_ws c)) s = true -> trim s = s.
Proof.
  intros H.
  assert (E : trimEnd s = s).
  { induction s as [|c s IH]; simpl in *; auto.
    apply andb_true_iff in H. destruct H as [Hc Hs]. apply negb_true_iff in Hc.
    rewrite Hc, IH; auto. }
  unfold trim. rewrite E. destruct s as [|c s]; auto.
  simpl in H. apply andb_true_iff in H. destruct H as [Hc _].
  apply negb_true_iff in Hc. apply trimStart_hd. exact Hc.
Qed.

Lemma trim_key key : forallb is_key_char key = true -> trim key = key.
Proof.
  intros H. apply trim_no_ws. rewrite forallb_forall in *.
  intros x Hx. rewrite (is_key_char_not_ws x); auto.
Qed.

(** The joined tags of a well-formed entry. *)
Lemma tags_joined ts :
  ts <> [] -> forallb wf_tag ts = true ->
  let j := join (lit ", ") ts in
  j <> [] /\ no_lt j = true /\ trim j = j /\ map trim (split (lit ",") j) = ts.
Proof.
  induction ts as [|t ts IH]; [congruence|]. intros _ H.
  simpl in H. apply andb_true_iff in H. destruct H as [Ht Hts].
  unfold wf_tag in Ht. apply andb_true_iff in Ht. destruct Ht as [Hm Hc].
  destruct (wf_meta_inv t Hm) as (Hne & Hlt & Htr).
  destruct ts as [|t' ts].
  - cbn [join]. repeat split; auto.
    change (lit ",") with [44%N]. rewrite split1_none by exact Hc.
    simpl. rewrite Htr. reflexivity.
  - destruct (IH ltac:(congruence) Hts) as (Jne & Jlt & Jtr & Jsp).
    set (j' := join (lit ", ") (t' :: ts)) in *.
    change (join (lit ", ") (t :: t' :: ts)) with (t ++ 44%N :: 32%N :: j').
    cbv zeta. repeat split.
    + destruct t; [congruence|discriminate].
    + rewrite no_lt_app, Hlt. simpl. exact Jlt.
    + unfold trim.
      assert (E : trimEnd (t ++ 44%N :: 32%N :: j') = t ++ 44%N :: 32%N :: j').
      { pose proof (trim_fix_End j' Jtr) as Ej.
        assert (E2 : trimEnd (44%N :: 32%N :: j') = 44%N :: 32%N :: j').
        { change (44%N :: 32%N :: j') with ([44%N; 32%N] ++ j').
          rewrite trimEnd_app; rewrite Ej; auto. }
        rewrite trimEnd_app; rewrite E2; [reflexivity|discriminate]. }
      rewrite E. destruct (wf_meta_hd t Hm) as (c & r & -> & Hw).
      apply trimStart_hd. exact Hw.
    + change (lit ",") with [44%N] in *. rewrite split1_app by exact Hc.
      rewrite split1_other by reflexivity.
      destruct (split [44%N] j') as [|p ps] eqn:Es.
      { exfalso. revert Es. apply split_not_nil. }
      cbn [map] in *. rewrite Htr.
      rewrite (trim_cons_ws 32%N p) by reflexivity. rewrite Jsp. reflexivity.
Qed.

(** *** One metadata line *)

Lemma parse_line_meta st key v :
  inContent st = false -> key <> [] -> forallb is_key_char key = true ->
  v <> [] -> no_lt v = true ->
  parse_line st (meta_line key v)
  = mkLS (meta_set (ls_meta st) key (trim v)) (contentLines st) false.
Proof.
  intros Hc Hk Hkey Hv Hlt. unfold parse_line, meta_line. rewrite Hc.
  assert (Hs : startsWith (lit "<!--") (key ++ lit ": " ++ v) = false).
  { destruct key as [|k key]; [congruence|]. simpl in Hkey.
    apply andb_true_iff in Hkey. destruct Hkey as [Hk0 _].
    change (lit "<!--") with [60%N; 33%N; 45%N; 45%N]. cbn [app startsWith].
    destruct (N.eqb_spec 60 k); [subst; discriminate Hk0|reflexivity]. }
  rewrite Hs. cbn [andb].
  rewrite is_meta_line_key by assumption.
  unfold no_lt in Hlt. rewrite Hlt. destruct v as [|c v]; [congruence|].
  cbn [is_empty negb andb].
  rewrite split_key_line by assumption.
  rewrite join_split by discriminate. rewrite trim_key by assumption.
  reflexivity.
Qed.

(** Once in the content, every line is content. *)
Lemma parse_lines_content ls : forall st,
  inContent st = true ->
  fold_left parse_line ls st = mkLS (ls_meta st) (contentLines st ++ ls) true.
Proof.
  induction ls as [|l ls IH]; intros st H.
  - simpl. rewrite app_nil_r. destruct st; simpl in *. subst. reflexivity.
  - cbn [fold_left]. rewrite IH.
    + unfold parse_line. rewrite H. cbn [ls_meta contentLines].
      rewrite <- app_assoc. reflexivity.
    + unfold parse_line. rewrite H. reflexivity.
Qed.

(** *** One block *)

Lemma wf_entry_inv e :
  wf_entry e = true ->
  wf_meta (id e) = true /\ wf_meta (type e) = true
  /\ tags e <> [] /\ forallb wf_tag (tags e) = true
  /\ wf_meta (createdAt e) = true /\ wf_meta (updatedAt e) = true
  /\ wf_meta (source e) = true
  /\ trim (content e) <> [] /\ has_sep true (content e) = false.
Proof.
  unfold wf_entry, wf_content. rewrite !andb_true_iff, !negb_true_iff.
  intros [[[[[[[H1 H2] H3] H4] H5] H6] H7] [H8 H9]].
  repeat split; auto.
  - intros E. rewrite E in H3. discriminate.
  - intros E. rewrite E in H8. discriminate.
Qed.

Lemma meta_line_no_nl key v :
  no_lt key = true -> no_lt v = true ->
  forallb (fun y => negb (N.eqb nl y)) (meta_line key v) = true.
Proof.
  intros Hk Hv. apply no_lt_no_nl. unfold meta_line.
  rewrite !no_lt_app, Hk, Hv. reflexivity.
Qed.

Lemma trimStart_block e r :
  trimStart ((join [nl] (meta_lines e ++ [[]]) ++ [nl]) ++ r)
  = (join [nl] (meta_lines e ++ [[]]) ++ [nl]) ++ r.
Proof. reflexivity. Qed.

Lemma trim_block_text e :
  trim (content e) <> [] ->
  trim (block_text e)
  = join [nl] ((meta_lines e ++ [[]]) ++ [trimEnd (content e)]).
Proof.
  intros Hc.
  assert (Hne : trimEnd (content e) <> []).
  { intros E. apply Hc. unfold trim. rewrite E. reflexivity. }
  rewrite block_text_eq. unfold trim.
  change (join [nl] (meta_lines e ++ [[]]) ++ nl :: content e ++ [nl; nl])
    with (join [nl] (meta_lines e ++ [[]]) ++ [nl] ++ content e ++ [nl; nl]).
  rewrite !app_assoc. rewrite trimEnd_app_blank by reflexivity.
  rewrite trimEnd_app by exact Hne.
  rewrite trimStart_block.
  rewrite (join_app_last [nl] (meta_lines e ++ [[]]))
    by (unfold meta_lines; discriminate).
  rewrite <- app_assoc. reflexivity.
Qed.

Lemma lines_block e tc :
  wf_entry e = true ->
  split [nl] (join [nl] ((meta_lines e ++ [[]]) ++ [tc]))
  = (meta_lines e ++ [[]]) ++ split [nl] tc.
Proof.
  intros H. destruct (wf_entry_inv e H) as (Hi & Ht & Hg & Hgs & Hc & Hu & Hs & _).
  destruct (tags_joined (tags e) Hg Hgs) as (_ & Hj & _).
  apply split1_lines.
  repeat constructor; try (apply meta_line_no_nl; try reflexivity);
    try (apply wf_meta_inv; assumption); assumption.
Qed.

Lemma parse_meta_lines e :
  wf_entry e = true ->
  fold_left parse_line (meta_lines e) (mkLS [] [] false)
  = mkLS [ (lit "source", source e); (lit "updatedAt", updatedAt e);
           (lit "createdAt", createdAt e); (lit "tags", join (lit ", ") (tags e));
           (lit "type", type e); (lit "id", id e) ] [] false.
Proof.
  intros H. destruct (wf_entry_inv e H) as (Hi & Ht & Hg & Hgs & Hc & Hu & Hs & _).
  destruct (tags_joined (tags e) Hg Hgs) as (Hj1 & Hj2 & Hj3 & _).
  destruct (wf_meta_inv _ Hi) as (? & ? & Ei).
  destruct (wf_meta_inv _ Ht) as (? & ? & Et).
  destruct (wf_meta_inv _ Hc) as (? & ? & Ec).
  destruct (wf_meta_inv _ Hu) as (? & ? & Eu).
  destruct (wf_meta_inv _ Hs) as (? & ? & Es).
  unfold meta_lines. cbn [fold_left].
  rewrite (parse_line_meta _ (lit "id") (id e))
    by first [reflexivity | discriminate | assumption].
  rewrite (parse_line_meta _ (lit "type") (type e))
    by first [reflexivity | discriminate | assumption].
  rewrite (parse_line_meta _ (lit "tags") (join (lit ", ") (tags e)))
    by first [reflexivity | discriminate | assumption].
  rewrite (parse_line_meta _ (lit "createdAt") (createdAt e))
    by first [reflexivity | discriminate | assumption].
  rewrite (parse_line_meta _ (lit "updatedAt") (updatedAt e))
    by first [reflexivity | discriminate | assumption].
  rewrite (parse_line_meta _ (lit "source") (source e))
    by first [reflexivity | discriminate | assumption].
  cbn [ls_meta contentLines]. unfold meta_set.
  rewrite Ei, Et, Ec, Eu, Es, Hj3. reflexivity.
Qed.

Lemma parse_block_lines e tc :
  wf_entry e = true ->
  fold_left parse_line ((meta_lines e ++ [[]]) ++ split [nl] tc) (mkLS [] [] false)
  = mkLS [ (lit "source", source e); (lit "updatedAt", updatedAt e);
           (lit "createdAt", createdAt e); (lit "tags", join (lit ", ") (tags e));
           (lit "type", type e); (lit "id", id e) ]
         ([] :: split [nl] tc) true.
Proof.
  intros H. rewrite !fold_left_app, parse_meta_lines by exact H.
  cbn [fold_left]. rewrite parse_lines_content by reflexivity. reflexivity.
Qed.

Lemma content_lines_nonblank c :
  trim c <> [] -> is_empty (trim (join [] ([] :: split [nl] (trimEnd c)))) = false.
Proof.
  intros H. rewrite join_cons by apply split_not_nil. cbn [app].
  assert (G : trim (join [] (split [nl] (trimEnd c))) <> []).
  { apply trim_nonblank. rewrite existsb_split1 by reflexivity.
    apply trim_nonblank. unfold trim. rewrite trimEnd_idem. exact H. }
  destruct (trim (join [] (split [nl] (trimEnd c)))); [congruence|reflexivity].
Qed.

Lemma content_lines_join c :
  trim (join [nl] ([] :: split [nl] (trimEnd c))) = trim c.
Proof.
  rewrite join_cons by apply split_not_nil. cbn [app].
  rewrite join_split by discriminate.
  rewrite trim_cons_ws by reflexivity.
  unfold trim. rewrite trimEnd_idem. reflexivity.
Qed.

(** The block of a well-formed entry parses to the entry. *)
Lemma parse_block_wf now e :
  wf_entry e = true ->
  is_empty (trim (block_text e)) = false
  /\ parse_block now (trim (block_text e)) = Some (trimmed e).
Proof.
  intros H. pose proof (wf_entry_inv e H) as (Hi & _ & Hg & Hgs & _ & _ & _ & Hc & _).
  destruct (tags_joined (tags e) Hg Hgs) as (Hj1 & _ & _ & Hj4).
  destruct (wf_meta_inv _ Hi) as (Hine & _ & _).
  rewrite trim_block_text by exact Hc. split.
  - destruct (meta_lines e ++ [[]]) eqn:E; [discriminate E|].
    unfold meta_lines in E. cbn [app] in E. injection E as <- <-.
    reflexivity.
  - unfold parse_block. rewrite lines_block, parse_block_lines by exact H.
    cbn [ls_meta contentLines].
    rewrite content_lines_nonblank by exact Hc.
    rewrite content_lines_join.
    change (meta_get _ (lit "id")) with (Some (id e)).
    change (meta_get _ (lit "type")) with (Some (type e)).
    change (meta_get _ (lit "tags")) with (Some (join (lit ", ") (tags e))).
    change (meta_get _ (lit "createdAt")) with (Some (createdAt e)).
    change (meta_get _ (lit "updatedAt")) with (Some (updatedAt e)).
    change (meta_get _ (lit "source")) with (Some (source e)).
    cbn [nullish].
    destruct (id e) as [|ci ri] eqn:Ei; [congruence|].
    destruct (join (lit ", ") (tags e)) as [|cj rj] eqn:Ej; [congruence|].
    cbn [truthy negb orb]. rewrite Hj4. unfold trimmed. rewrite Ei. reflexivity.
Qed.

(** *** One serialized entry *)

Lemma has_sep_prefixed p v :
  p <> [] -> N.eqb (hd dash p) dash = false -> no_lt p = true -> no_lt v = true ->
  has_sep true (p ++ v) = false.
Proof.
  intros Hp Hd Hl Hv. destruct p as [|c p]; [congruence|].
  apply has_sep_one_line; [exact Hd|].
  change (no_lt ((c :: p) ++ v) = true). rewrite no_lt_app, Hl, Hv. reflexivity.
Qed.

Lemma has_sep_meta_line key v :
  key <> [] -> N.eqb (hd dash key) dash = false -> no_lt key = true ->
  no_lt v = true -> has_sep true (meta_line key v) = false.
Proof.
  intros Hk Hd Hl Hv. unfold meta_line. apply has_sep_prefixed; auto.
Qed.

Lemma has_sep_join ls :
  Forall (fun l => has_sep true l = false) ls -> has_sep true (join [nl] ls) = false.
Proof.
  induction 1 as [|l ls Hl _ IH]; [reflexivity|].
  destruct ls as [|l' ls]; [exact Hl|].
  rewrite join_cons by discriminate.
  change (l ++ [nl] ++ join [nl] (l' :: ls)) with (l ++ nl :: join [nl] (l' :: ls)).
  rewrite has_sep_app_lt by reflexivity. rewrite Hl, IH. reflexivity.
Qed.

Lemma has_sep_block e : wf_entry e = true -> has_sep true (block_body e) = false.
Proof.
  intros H. destruct (wf_entry_inv e H) as (Hi & Ht & Hg & Hgs & Hc & Hu & Hs & _ & Hsep).
  destruct (tags_joined (tags e) Hg Hgs) as (_ & Hj & _).
  apply has_sep_join.
  repeat constructor; try exact Hsep;
    apply has_sep_meta_line;
    first [discriminate | reflexivity | assumption | apply wf_meta_inv; assumption].
Qed.

Lemma pieces_after_sep r :
  r = [] \/ (exists l, r = [l] /\ is_lt l = true) ->
  pieces true (lit "---" ++ r) = [[]; r].
Proof.
  change (lit "---" ++ r) with (dash :: dash :: dash :: r).
  intros [->|(l & -> & Hl)].
  - rewrite pieces_sep by reflexivity. reflexivity.
  - rewrite pieces_sep by exact Hl. rewrite pieces_lt_hd by exact Hl. reflexivity.
Qed.

Lemma pieces_block e r :
  wf_entry e = true ->
  r = [] \/ (exists l, r = [l] /\ is_lt l = true) ->
  pieces true (serializeEntry e ++ r) = [block_text e; r].
Proof.
  intros H Hr. rewrite serializeEntry_block. unfold block_text.
  fold (block_body e). rewrite <- !app_assoc.
  change ([nl] ++ lit "---" ++ r) with (nl :: (lit "---" ++ r)).
  rewrite pieces_line by (apply has_sep_block || reflexivity; assumption).
  rewrite pieces_after_sep by exact Hr. reflexivity.
Qed.

Lemma trim_blank r : forallb is_ws r = true -> trim r = [].
Proof. intros H. unfold trim. rewrite trimEnd_blank by exact H. reflexivity. Qed.

Lemma parse_serialized now e r :
  wf_entry e = true ->
  r = [] \/ (exists l, r = [l] /\ is_lt l = true) ->
  parseMemoryMd now (serializeEntry e ++ r) = [trimmed e].
Proof.
  intros H Hr. unfold parseMemoryMd. change split_blocks with (pieces true).
  rewrite pieces_block by assumption.
  destruct (parse_block_wf now e H) as (Hne & Hp).
  cbn [map filter]. rewrite Hne. cbn [negb].
  replace (trim r) with (@nil N).
  - cbn [is_empty negb flat_map]. rewrite Hp. reflexivity.
  - symmetry. apply trim_blank. destruct Hr as [->|(l & -> & Hl)]; simpl; auto.
    rewrite (is_lt_ws l Hl). reflexivity.
Qed.

(** A serialized entry followed by a newline is a closed text. *)
Lemma closed_serialized a e :
  closed (a ++ serializeEntry e ++ [nl]).
Proof.
  right. exists (a ++ block_text e), nl. split; [|split; [reflexivity|right]].
  - rewrite serializeEntry_block. rewrite <- !app_assoc. reflexivity.
  - unfold block_text. rewrite app_assoc. apply ends_lt_app. reflexivity.
Qed.

(** *** Files *)

Lemma parse_entries now es :
  Forall (fun e => wf_entry e = true) es ->
  parseMemoryMd now (join [nl] (map serializeEntry es)) = map trimmed es.
Proof.
  induction 1 as [|e es He _ IH]; [reflexivity|].
  destruct es as [|e' es].
  - cbn [map join]. rewrite <- (app_nil_r (serializeEntry e)).
    apply parse_serialized; auto.
  - cbn [map] in *. rewrite join_cons by discriminate.
    rewrite app_assoc. rewrite parseMemoryMd_app.
    + rewrite IH. rewrite parse_serialized; auto.
      right. exists nl. auto.
    + apply (closed_serialized [] e).
Qed.

Lemma trim_cons_nonws c s : is_ws c = false -> trim (c :: s) = c :: trimEnd s.
Proof.
  intros H. unfold trim. cbn [trimEnd]. rewrite H. cbn [andb].
  apply trimStart_hd. exact H.
Qed.

(** A block whose first character is a hash sign has no metadata. *)
Lemma parse_block_hash now x : parse_block now (35%N :: x) = None.
Proof.
  unfold parse_block. rewrite split1_other by reflexivity.
  destruct (split [nl] x) as [|p ps] eqn:E.
  { exfalso. revert E. apply split_not_nil. }
  cbn [fold_left].
  rewrite parse_lines_content by reflexivity. reflexivity.
Qed.

Lemma long_term_header_eq label now :
  long_term_header label now = header_text label now ++ nl :: lit "---" ++ [nl].
Proof.
  unfold long_term_header, header_text. rewrite <- !app_assoc. reflexivity.
Qed.

Lemma has_sep_header label now :
  wf_label label -> no_lt now = true -> has_sep true (header_text label now) = false.
Proof.
  intros (H1 & H2 & H3) Hn. unfold header_text.
  change (lit "# OpenPaw Long-Term Memory" ++ [nl; nl] ++ label ++ now ++ [nl])
    with (lit "# OpenPaw Long-Term Memory" ++ nl :: nl :: label ++ now ++ [nl]).
  rewrite has_sep_app_lt by reflexivity. rewrite has_sep_empty_line.
  rewrite app_assoc. rewrite has_sep_app_lt by reflexivity.
  rewrite has_sep_prefixed by assumption. reflexivity.
Qed.

Lemma closed_header label now : closed (long_term_header label now).
Proof.
  right. exists (header_text label now ++ [nl]), nl.
  split; [|split; [reflexivity|right]].
  - rewrite long_term_header_eq. rewrite <- app_assoc. reflexivity.
  - apply ends_lt_app. reflexivity.
Qed.

Lemma parse_header t label now :
  wf_label label -> no_lt now = true ->
  parseMemoryMd t (long_term_header label now) = [].
Proof.
  intros Hl Hn. unfold parseMemoryMd. change split_blocks with (pieces true).
  rewrite long_term_header_eq.
  rewrite pieces_line by (apply has_sep_header || reflexivity; assumption).
  rewrite (pieces_after_sep [nl]) by (right; exists nl; auto).
  cbn [map].
  change (header_text label now ++ [nl])
    with (35%N :: tl (header_text label now ++ [nl])).
  rewrite trim_cons_nonws by reflexivity.
  change (trim [nl]) with (@nil N).
  cbn [filter is_empty negb flat_map]. rewrite parse_block_hash. reflexivity.
Qed.

(** What [upsertLongTerm] and [forget] write reads back as written. *)
Lemma parse_long_term t label now es :
  wf_label label -> no_lt now = true ->
  Forall (fun e => wf_entry e = true) es ->
  parseMemoryMd t (long_term_header label now ++ join [nl] (map serializeEntry es))
  = map trimmed es.
Proof.
  intros Hl Hn Hes. rewrite parseMemoryMd_app by apply closed_header.
  rewrite parse_header by assumption. apply parse_entries. exact Hes.
Qed.

(** What [appendDailyLog] appends to a closed file reads back after what
    the file held. *)
Lemma parse_log_append t raw e :
  closed raw -> wf_entry e = true ->
  parseMemoryMd t (raw ++ serializeEntry e ++ [nl]) = parseMemoryMd t raw ++ [trimmed e].
Proof.
  intros Hc He. rewrite parseMemoryMd_app by exact Hc.
  rewrite parse_serialized; auto. right. exists nl. auto.
Qed.

(** * Lists of entries: upsert, sort, slice *)

Lemma slice_from_suffix {A} k (l : list A) : exists pre, l = pre ++ slice_from k l.
Proof.
  unfold slice_from. eexists. symmetry. apply firstn_skipn.
Qed.

Lemma slice_from_last {A} (m : Z) (l : list A) :
  (0 < m)%Z -> slice_from (- m) l = skipn (length l - Z.to_nat m) l.
Proof.
  intros H. unfold slice_from.
  destruct (Z.ltb_spec (- m) 0); [|lia]. f_equal. lia.
Qed.

Lemma slice_from_all {A} (m : Z) (l : list A) :
  (Z.of_nat (length l) <= m)%Z -> slice_from (- m) l = l.
Proof.
  intros H. unfold slice_from.
  destruct (Z.ltb_spec (- m) 0).
  - replace (Z.to_nat (Z.max (Z.of_nat (length l) + - m) 0)) with 0 by lia.
    reflexivity.
  - assert (m = 0%Z) by lia. subst. assert (length l = 0) by lia.
    destruct l; [reflexivity|discriminate].
Qed.


Lemma upsert_entry_In e es x :
  In x (upsert_entry e es) -> x = e \/ In x es.
Proof.
  induction es as [|y es IH]; simpl.
  - intros [->|[]]. auto.
  - destruct (str_eqb (id y) (id e)); simpl; intros [->|H]; auto.
    destruct (IH H); auto.
Qed.

Lemma upsert_entry_has e es : In e (upsert_entry e es).
Proof.
  induction es as [|y es IH]; simpl; auto.
  destruct (str_eqb (id y) (id e)); simpl; auto.
Qed.

Lemma upsert_entry_ids e es :
  NoDup (map id es) -> NoDup (map id (upsert_entry e es)).
Proof.
  induction es as [|y es IH]; simpl; intros H.
  - constructor; [intros []|constructor].
  - inversion H as [|? ? Hy Hes]; subst.
    destruct (str_eqb (id y) (id e)) eqn:E; simpl.
    + apply str_eqb_eq in E. rewrite <- E. constructor; assumption.
    + constructor; auto. intros Hin. apply in_map_iff in Hin.
      destruct Hin as (x & Hx & Hin). apply upsert_entry_In in Hin.
      destruct Hin as [->|Hin].
      * apply str_eqb_neq in E. congruence.
      * apply Hy. rewrite <- Hx. apply in_map. exact Hin.
Qed.

Lemma upsert_entry_length e es :
  length (upsert_entry e es)
  = if existsb (fun x => str_eqb (id x) (id e)) es then length es else S (length es).
Proof.
  induction es as [|y es IH]; simpl; auto.
  destruct (str_eqb (id y) (id e)); simpl; auto.
  rewrite IH. destruct (existsb _ es); reflexivity.
Qed.

(** With distinct ids, the entries under another id are those of before. *)
Lemma upsert_entry_others e es :
  NoDup (map id es) ->
  filter (fun x => negb (str_eqb (id x) (id e))) (upsert_entry e es)
  = filter (fun x => negb (str_eqb (id x) (id e))) es.
Proof.
  induction es as [|y es IH]; simpl; intros H.
  - rewrite str_eqb_refl. reflexivity.
  - inversion H as [|? ? Hy Hes]; subst.
    destruct (str_eqb (id y) (id e)) eqn:E; simpl.
    + rewrite str_eqb_refl. reflexivity.
    + rewrite E. simpl. rewrite IH; auto.
Qed.

Section Sorting.

Variable localeCompare : str -> str -> Z.

Lemma sort_insert_perm x l : Permutation (sort_insert localeCompare x l) (x :: l).
Proof.
  induction l as [|y l IH]; simpl; auto.
  destruct (localeCompare (updatedAt y) (updatedAt x) >? 0)%Z; auto.
  rewrite IH. apply perm_swap.
Qed.

Lemma sort_perm l : Permutation (sort_by_updatedAt localeCompare l) l.
Proof.
  unfold sort_by_updatedAt.
  assert (G : forall acc,
            Permutation (fold_left (fun a x => sort_insert localeCompare x a) l acc)
                        (acc ++ l)).
  { induction l as [|x l IH]; intros acc; simpl.
    - rewrite app_nil_r. reflexivity.
    - rewrite IH. rewrite sort_insert_perm.
      change (x :: acc) with ([x] ++ acc).
      rewrite (Permutation_app_comm [x] acc), <- app_assoc. reflexivity. }
  apply (G []).
Qed.

Lemma sort_snoc l x :
  sort_by_updatedAt localeCompare (l ++ [x])
  = sort_insert localeCompare x (sort_by_updatedAt localeCompare l).
Proof. unfold sort_by_updatedAt. rewrite fold_left_app. reflexivity. Qed.

(** A consistent comparison function. *)
Hypothesis compare_flip : forall a b, (localeCompare a b > 0)%Z -> (localeCompare b a <= 0)%Z.
Hypothesis compare_trans : forall a b c,
  (localeCompare a b <= 0)%Z -> (localeCompare b c <= 0)%Z -> (localeCompare a c <= 0)%Z.

Lemma sort_insert_sorted x l :
  StronglySorted (le_time localeCompare) l ->
  StronglySorted (le_time localeCompare) (sort_insert localeCompare x l).
Proof.
  induction 1 as [|y l Hl IH Hy]; simpl.
  - constructor; constructor.
  - destruct (Z.gtb_spec (localeCompare (updatedAt y) (updatedAt x)) 0) as [G|G].
    + assert (Hxy : le_time localeCompare x y) by (apply compare_flip; lia).
      constructor; [constructor; assumption|].
      constructor; auto.
      rewrite Forall_forall in *. intros z Hz. unfold le_time in *.
      eapply compare_trans; [exact Hxy|]. apply Hy. exact Hz.
    + constructor; auto.
      rewrite Forall_forall in *. intros z Hz.
      apply (Permutation_in _ (sort_insert_perm x l)) in Hz.
      destruct Hz as [<-|Hz]; auto.
Qed.

Lemma sort_sorted l : StronglySorted (le_time localeCompare) (sort_by_updatedAt localeCompare l).
Proof.
  induction l as [|x l IH] using rev_ind.
  - constructor.
  - rewrite sort_snoc. apply sort_insert_sorted. exact IH.
Qed.

End Sorting.

(** * The store *)

Lemma closedb_closed raw : closedb raw = true -> closed raw.
Proof.
  unfold closedb. destruct (rev raw) as [|l [|c3 [|c2 [|c1 r]]]] eqn:E;
    try discriminate.
  - intros _. left. destruct raw; auto. simpl in E.
    apply app_eq_nil in E. destruct E. discriminate.
  - rewrite !andb_true_iff, !N.eqb_eq. intros [[[[Hl ->] ->] ->] Hr].
    right. exists (rev r), l. split; [|split; auto].
    + rewrite <- (rev_involutive raw), E. simpl. rewrite <- !app_assoc. reflexivity.
    + destruct r as [|x r]; auto. right. simpl. apply ends_lt_app. exact Hr.
Qed.

Lemma readAllEntries_split now s :
  readAllEntries now s = long_term now s ++ daily_logs now s.
Proof. reflexivity. Qed.

Lemma trimmed_stored e : wf_stored e = true -> trimmed e = e.
Proof.
  unfold wf_stored, trimmed. rewrite andb_true_iff, str_eqb_eq.
  intros [_ ->]. destruct e; reflexivity.
Qed.

Lemma map_trimmed_stored es :
  Forall (fun e => wf_stored e = true) es -> map trimmed es = es.
Proof.
  induction 1 as [|e es He _ IH]; simpl; auto.
  rewrite trimmed_stored, IH; auto.
Qed.

Lemma wf_stored_entry e : wf_stored e = true -> wf_entry e = true.
Proof. unfold wf_stored. rewrite andb_true_iff. tauto. Qed.

Lemma Forall_wf_stored_entry es :
  Forall (fun e => wf_stored e = true) es -> Forall (fun e => wf_entry e = true) es.
Proof. apply Forall_impl. apply wf_stored_entry. Qed.

Lemma wf_stored_created e : wf_stored e = true -> wf_meta (createdAt e) = true.
Proof.
  intros H. apply wf_stored_entry in H. apply wf_entry_inv in H. tauto.
Qed.

Lemma wf_label_updated : wf_label (lit "Last updated: ").
Proof. repeat split. discriminate. Qed.

Lemma wf_label_created : wf_label (lit "Created: ").
Proof. repeat split. discriminate. Qed.

(** The entry [save] builds from well-formed arguments is well-formed. *)
Lemma wf_new_entry now rnd c o existing :
  wf_save rnd c o = true -> wf_meta now = true ->
  (forall e, existing = Some e -> wf_meta (createdAt e) = true) ->
  wf_stored (new_entry now rnd c o existing) = true.
Proof.
  unfold wf_save, wf_stored, wf_entry, new_entry.
  cbn [id type content tags createdAt updatedAt source].
  intros H Hn He. rewrite !andb_true_iff in H.
  destruct H as [[[[H1 H2] H3] H4] H5].
  destruct (opt_tags o) as [ts|]; [|discriminate].
  apply andb_true_iff in H3. destruct H3 as [H3 H3'].
  rewrite H1, H2, H3, H3', H4, H5, Hn, trim_idem, str_eqb_refl.
  destruct existing as [e|]; [rewrite (He e eq_refl)|rewrite Hn]; reflexivity.
Qed.

Lemma find_some_In {A} (f : A -> bool) l x : find f l = Some x -> In x l /\ f x = true.
Proof. apply find_some. Qed.

Lemma logs_ok_entries s t :
  logs_ok s -> Forall (fun e => wf_stored e = true) (daily_logs t s).
Proof.
  unfold logs_ok, daily_logs. intros H. apply Forall_forall. intros e He.
  apply in_flat_map in He. destruct He as (f & Hf & He).
  apply filter_In in Hf. destruct Hf as [Hf _].
  rewrite Forall_forall in H. destruct (H f Hf) as (_ & es & Hes & Hw).
  rewrite Hes in He. rewrite Forall_forall in Hw. auto.
Qed.

Lemma store_ok_entries s t :
  store_ok s -> Forall (fun e => wf_stored e = true) (readAllEntries t s).
Proof.
  intros [(es & Hes & Hw & _) Hl]. rewrite readAllEntries_split, Hes.
  apply Forall_app. split; auto. apply logs_ok_entries. exact Hl.
Qed.

Lemma getEntry_created s t i e :
  store_ok s -> getEntry t s i = Some e -> wf_meta (createdAt e) = true.
Proof.
  intros Hs H. unfold getEntry in H. apply find_some in H. destruct H as [H _].
  pose proof (store_ok_entries s t Hs) as F. rewrite Forall_forall in F.
  apply wf_stored_created. auto.
Qed.

Lemma wf_clock_no_lt clk k : wf_clock clk -> no_lt (clk k) = true.
Proof. intros H. destruct (H k) as [Hm _]. apply wf_meta_inv in Hm. tauto. Qed.

Lemma wf_clock_meta clk k : wf_clock clk -> wf_meta (clk k) = true.
Proof. intros H. apply (H k). Qed.

(** *** forget *)

Lemma filter_length_eq {A} (f : A -> bool) l :
  length (filter f l) = length l -> filter f l = l.
Proof.
  induction l as [|x l IH]; simpl; auto.
  destruct (f x); simpl; intros H.
  - f_equal. apply IH. lia.
  - pose proof (filter_length_le f l). lia.
Qed.

Lemma forget_spec clk i s es :
  (forall t, long_term t s = es) ->
  Forall (fun x => wf_stored x = true) es -> no_lt (clk 1%nat) = true ->
  let r := forget clk i s in
  (fst r = true <-> In i (map id es))
  /\ (fst r = true ->
      forall t, long_term t (snd r) = filter (fun e => negb (str_eqb (id e) i)) es)
  /\ (fst r = false -> snd r = s)
  /\ DAILY_DIR (snd r) = DAILY_DIR s
  /\ shortTerm (snd r) = shortTerm s.
Proof.
  intros Hes Hw Hc r. unfold r, forget.
  destruct (MEMORY_MD s) as [raw|] eqn:M.
  - assert (E : parseMemoryMd (clk 0%nat) raw = es).
    { rewrite <- (Hes (clk 0%nat)). unfold long_term. rewrite M. reflexivity. }
    rewrite E.
    set (filtered := filter (fun e => negb (str_eqb (id e) i)) es).
    destruct (Nat.eqb_spec (length filtered) (length es)) as [L|L]; cbn [fst snd].
    + repeat split; try discriminate; auto.
      intros Hin. exfalso. apply in_map_iff in Hin. destruct Hin as (x & Hx & Hin).
      apply filter_length_eq in L. fold filtered in L.
      rewrite <- L in Hin. apply filter_In in Hin. destruct Hin as [_ Hin].
      rewrite Hx, str_eqb_refl in Hin. discriminate.
    + repeat split; try discriminate; auto.
      * intros _. destruct (in_dec (list_eq_dec N.eq_dec) i (map id es)) as [Hin|Hin]; auto.
        exfalso. apply L. f_equal. unfold filtered.
        apply filter_length_eq. f_equal.
        assert (G : forall x, In x es -> negb (str_eqb (id x) i) = true).
        { intros x Hx. apply negb_true_iff, str_eqb_neq. intros <-.
          apply Hin. apply in_map. exact Hx. }
        clear -G. induction es as [|x es IH]; simpl; auto.
        rewrite G by (left; reflexivity). f_equal. apply IH.
        intros y Hy. apply G. right. exact Hy.
      * intros _ t. unfold long_term. cbn [MEMORY_MD].
        assert (F : Forall (fun x => wf_stored x = true) filtered).
        { apply Forall_forall. intros x Hx. apply filter_In in Hx.
          rewrite Forall_forall in Hw. apply Hw. tauto. }
        rewrite parse_long_term.
        -- apply map_trimmed_stored. exact F.
        -- apply wf_label_updated.
        -- exact Hc.
        -- apply Forall_wf_stored_entry. exact F.
  - cbn [fst snd]. repeat split; try discriminate; auto.
    intros Hin. exfalso. rewrite <- (Hes []) in Hin. unfold long_term in Hin.
    rewrite M in Hin. destruct Hin.
Qed.

Lemma NoDup_map_filter {A B} (f : A -> B) (p : A -> bool) l :
  NoDup (map f l) -> NoDup (map f (filter p l)).
Proof.
  induction l as [|x l IH]; simpl; auto. intros H.
  inversion H as [|? ? Hx Hl]; subst.
  destruct (p x); simpl; auto. constructor; auto.
  intros Hin. apply Hx. apply in_map_iff in Hin. destruct Hin as (y & Hy & Hin).
  apply filter_In in Hin. rewrite <- Hy. apply in_map. tauto.
Qed.

Lemma forget_ok clk i s :
  store_ok s -> wf_clock clk -> store_ok (snd (forget clk i s)).
Proof.
  intros Hs Hc. pose proof Hs as [(es & Hes & Hw & Hnd) Hlogs].
  destruct (forget_spec clk i s es Hes Hw (wf_clock_no_lt clk 1%nat Hc))
    as (_ & Ht & Hf & D & _).
  destruct (fst (forget clk i s)) eqn:E.
  - split.
    + exists (filter (fun e => negb (str_eqb (id e) i)) es). repeat split; auto.
      * apply Forall_forall. intros x Hx. apply filter_In in Hx.
        rewrite Forall_forall in Hw. apply Hw. tauto.
      * apply NoDup_map_filter. exact Hnd.
    + unfold logs_ok. rewrite D. exact Hlogs.
  - rewrite Hf by reflexivity. exact Hs.
Qed.

(** * The operations on a well-formed store *)

Section Operations.

Variable MAX_SHORT_TERM : Z.
Variable MAX_FACTS : Z.
Variable localeCompare : str -> str -> Z.

Lemma kept_In e es x : In x (kept MAX_FACTS localeCompare e es) -> x = e \/ In x es.
Proof.
  unfold kept. intros H.
  destruct (slice_from_suffix (- MAX_FACTS) (sort_by_updatedAt localeCompare (upsert_entry e es)))
    as (pre & E).
  apply upsert_entry_In. apply (Permutation_in _ (sort_perm localeCompare _)).
  rewrite E. apply in_or_app. auto.
Qed.

Lemma kept_Forall (P : MemoryEntry -> Prop) e es :
  P e -> Forall P es -> Forall P (kept MAX_FACTS localeCompare e es).
Proof.
  intros He Hes. apply Forall_forall. intros x Hx.
  destruct (kept_In e es x Hx) as [->|H]; auto.
  rewrite Forall_forall in Hes. auto.
Qed.

Lemma kept_ids e es : NoDup (map id es) -> NoDup (map id (kept MAX_FACTS localeCompare e es)).
Proof.
  intros H. unfold kept.
  destruct (slice_from_suffix (- MAX_FACTS) (sort_by_updatedAt localeCompare (upsert_entry e es)))
    as (pre & E).
  pose proof (upsert_entry_ids e es H) as U.
  apply (Permutation_NoDup (Permutation_map id (Permutation_sym (sort_perm localeCompare _)))) in U.
  rewrite E, map_app in U. apply NoDup_app_remove_l in U. exact U.
Qed.

Lemma long_term_upsert tp th e s es :
  (forall t, long_term t s = es) ->
  Forall (fun x => wf_stored x = true) es -> wf_stored e = true -> no_lt th = true ->
  forall t, long_term t (upsertLongTerm MAX_FACTS localeCompare tp th e s)
            = kept MAX_FACTS localeCompare e es.
Proof.
  intros Hes Hw He Hth t. unfold upsertLongTerm, long_term at 1. cbn [MEMORY_MD].
  assert (E : parseMemoryMd tp match MEMORY_MD s with Some r => r | None => [] end = es).
  { rewrite <- (Hes tp). unfold long_term. destruct (MEMORY_MD s); reflexivity. }
  rewrite E. fold (kept MAX_FACTS localeCompare e es).
  assert (F : Forall (fun x => wf_stored x = true) (kept MAX_FACTS localeCompare e es))
    by (apply kept_Forall; assumption).
  rewrite parse_long_term.
  - apply map_trimmed_stored. exact F.
  - apply wf_label_updated.
  - exact Hth.
  - apply Forall_wf_stored_entry. exact F.
Qed.

Lemma existing_created clk o s e :
  store_ok s -> existing_of clk o s = Some e -> wf_meta (createdAt e) = true.
Proof.
  unfold existing_of. intros Hs H.
  destruct (opt_id o) as [[|c i]|]; try discriminate.
  eapply getEntry_created; eauto.
Qed.

Lemma save_entry clk rnd c o s :
  fst (save MAX_FACTS localeCompare clk rnd c o s)
  = new_entry (clk 0%nat) rnd c o (existing_of clk o s).
Proof. reflexivity. Qed.

Lemma save_entry_wf clk rnd c o s :
  store_ok s -> wf_clock clk -> wf_save rnd c o = true ->
  wf_stored (fst (save MAX_FACTS localeCompare clk rnd c o s)) = true.
Proof.
  intros Hs Hc Hw. rewrite save_entry. apply wf_new_entry; auto.
  - apply wf_clock_meta. exact Hc.
  - intros e. apply existing_created. exact Hs.
Qed.

(** A save of another kind than log rewrites the long-term file only. *)
Lemma save_fact clk rnd c o s es :
  store_ok s -> (forall t, long_term t s = es) ->
  wf_clock clk -> wf_save rnd c o = true -> is_log o = false ->
  let r := save MAX_FACTS localeCompare clk rnd c o s in
  (forall t, long_term t (snd r) = kept MAX_FACTS localeCompare (fst r) es)
  /\ DAILY_DIR (snd r) = DAILY_DIR s
  /\ shortTerm (snd r) = shortTerm s
  /\ store_ok (snd r).
Proof.
  intros Hs Hes Hc Hw Hl r.
  pose proof (save_entry_wf clk rnd c o s Hs Hc Hw) as He. fold r in He.
  destruct Hs as [(es' & Hes' & Hwf & Hnd) Hlogs].
  assert (es' = es) by (rewrite <- (Hes []), <- (Hes' []); reflexivity). subst es'.
  assert (L : forall t, long_term t (snd r) = kept MAX_FACTS localeCompare (fst r) es).
  { intros t. unfold r, save. cbn [fst snd]. unfold is_log in Hl.
    change (type (new_entry _ _ _ _ _))
      with (match opt_type o with Some t => t | None => lit "fact" end).
    rewrite Hl.
    change (long_term t (mkStore ?m ?d ?f ?w)) with (long_term t (mkStore m d [] [])).
    unfold long_term at 1. cbn [MEMORY_MD].
    apply (long_term_upsert (clk 2%nat) (clk 3%nat) _ s es); auto.
    apply wf_clock_no_lt. exact Hc. }
  assert (D : DAILY_DIR (snd r) = DAILY_DIR s).
  { unfold r, save. cbn [fst snd]. unfold is_log in Hl.
    change (type (new_entry _ _ _ _ _))
      with (match opt_type o with Some t => t | None => lit "fact" end).
    rewrite Hl. reflexivity. }
  assert (W : shortTerm (snd r) = shortTerm s).
  { unfold r, save. cbn [fst snd]. unfold is_log in Hl.
    change (type (new_entry _ _ _ _ _))
      with (match opt_type o with Some t => t | None => lit "fact" end).
    rewrite Hl. reflexivity. }
  repeat split; auto.
  - exists (kept MAX_FACTS localeCompare (fst r) es). repeat split; auto.
    + apply kept_Forall; assumption.
    + apply kept_ids. exact Hnd.
  - unfold logs_ok. rewrite D. exact Hlogs.
Qed.

(** A save of kind log appends to the file of the day only. *)
Lemma save_log clk rnd c o s :
  is_log o = true ->
  let r := save MAX_FACTS localeCompare clk rnd c o s in
  MEMORY_MD (snd r) = MEMORY_MD s
  /\ DAILY_DIR (snd r)
     = appendFile (DAILY_DIR s) (today (clk 2%nat) ++ lit ".md")
                  (serializeEntry (fst r) ++ [nl])
  /\ shortTerm (snd r) = shortTerm s.
Proof.
  intros Hl r. unfold r, save. cbn [fst snd]. unfold is_log in Hl.
  change (type (new_entry _ _ _ _ _))
    with (match opt_type o with Some t => t | None => lit "fact" end).
  rewrite Hl. repeat split.
Qed.

Lemma appendFile_Forall (P : str * str -> Prop) dir name text :
  Forall P dir -> P (name, text) ->
  (forall raw, P (name, raw) -> P (name, raw ++ text)) ->
  Forall P (appendFile dir name text).
Proof.
  intros Hd Hn Ha. induction Hd as [|[n c] d Hc Hd IH]; simpl.
  - constructor; auto.
  - destruct (str_eqb n name) eqn:E.
    + apply str_eqb_eq in E. subst n. constructor; [apply Ha; exact Hc|].
      rewrite Forall_forall. intros x Hx. rewrite Forall_forall in Hd. auto.
    + constructor; auto.
Qed.

Lemma logs_ok_append s s' name e :
  logs_ok s -> wf_stored e = true ->
  DAILY_DIR s' = appendFile (DAILY_DIR s) name (serializeEntry e ++ [nl]) ->
  logs_ok s'.
Proof.
  unfold logs_ok. intros H He ->.
  pose proof (wf_stored_entry e He) as He'.
  apply appendFile_Forall; auto; cbn [snd].
  - split; [apply (closed_serialized [] e)|]. exists [e]. split.
    + intros t. rewrite parse_serialized by (auto; right; exists nl; auto).
      rewrite trimmed_stored by exact He. reflexivity.
    + constructor; auto.
  - intros raw (Hc & es & Hes & Hw). split; [apply closed_serialized|].
    exists (es ++ [e]). split.
    + intros t. rewrite parse_log_append by assumption.
      rewrite trimmed_stored by exact He. rewrite Hes. reflexivity.
    + apply Forall_app. split; auto.
Qed.

Lemma long_term_same s s' t : MEMORY_MD s' = MEMORY_MD s -> long_term t s' = long_term t s.
Proof. unfold long_term. intros ->. reflexivity. Qed.

Lemma long_term_ok_same s s' : MEMORY_MD s' = MEMORY_MD s -> long_term_ok s -> long_term_ok s'.
Proof.
  intros E (es & H & K). exists es. split; auto.
  intros t. rewrite (long_term_same s s' t E). auto.
Qed.

Lemma save_log_ok clk rnd c o s :
  store_ok s -> wf_clock clk -> wf_save rnd c o = true -> is_log o = true ->
  store_ok (snd (save MAX_FACTS localeCompare clk rnd c o s)).
Proof.
  intros Hs Hc Hw Hl.
  pose proof (save_entry_wf clk rnd c o s Hs Hc Hw) as He.
  destruct (save_log clk rnd c o s Hl) as (M & D & _).
  destruct Hs as [Hlt Hlogs]. split.
  - eapply long_term_ok_same; eauto.
  - eapply logs_ok_append; eauto.
Qed.

Lemma save_ok clk rnd c o s :
  store_ok s -> wf_clock clk -> wf_save rnd c o = true ->
  store_ok (snd (save MAX_FACTS localeCompare clk rnd c o s)).
Proof.
  intros Hs Hc Hw. destruct (is_log o) eqn:Hl.
  - apply save_log_ok; assumption.
  - pose proof Hs as [(es & Hes & _) _].
    apply (save_fact clk rnd c o s es); assumption.
Qed.

(** *** flushSession *)

Lemma flushSession_eq clk rnd a s :
  flushSession MAX_FACTS localeCompare clk rnd a s
  = clearShortTerm
      (snd (save MAX_FACTS localeCompare (fun k => clk (S k)) rnd
                 (session_summary a (shortTerm s)) (flush_options (today (clk 0%nat))) s)).
Proof.
  unfold flushSession, flush_options.
  destruct (save MAX_FACTS localeCompare (fun k => clk (S k)) rnd _ _ s). reflexivity.
Qed.

Lemma wf_save_flush rnd summary day :
  wf_meta rnd = true -> wf_tag day = true -> wf_content (trim summary) = true ->
  wf_save rnd summary (flush_options day) = true.
Proof.
  intros H1 H2 H3. unfold wf_save, flush_options.
  cbn [opt_id opt_type opt_tags opt_source forallb is_empty negb].
  rewrite H1, H2, H3. reflexivity.
Qed.

Lemma wf_clock_shift clk : wf_clock clk -> wf_clock (fun k => clk (S k)).
Proof. intros H k. apply H. Qed.

Lemma store_ok_files s s' :
  MEMORY_MD s' = MEMORY_MD s -> DAILY_DIR s' = DAILY_DIR s -> store_ok s -> store_ok s'.
Proof.
  intros M D [H1 H2]. split.
  - eapply long_term_ok_same; eauto.
  - unfold logs_ok. rewrite D. exact H2.
Qed.

(** *** Sequences of well-formed calls *)

Lemma step_ok s op :
  store_ok s -> wf_op s op ->
  store_ok (step MAX_SHORT_TERM MAX_FACTS localeCompare s op).
Proof.
  intros Hs Hop. destruct op as [clk rnd c o|clk i|clk rnd a|m]; cbn [step].
  - destruct Hop. apply save_ok; assumption.
  - apply forget_ok; assumption.
  - destruct Hop as (Hc & Hr & Hw). rewrite flushSession_eq.
    eapply store_ok_files; [reflexivity|reflexivity|].
    apply save_ok; auto.
    + apply wf_clock_shift. exact Hc.
    + apply wf_save_flush; auto. apply (Hc 0%nat).
  - eapply store_ok_files; [reflexivity|reflexivity|exact Hs].
Qed.

Lemma run_ok ops : forall s,
  store_ok s -> wf_run MAX_SHORT_TERM MAX_FACTS localeCompare s ops ->
  store_ok (run MAX_SHORT_TERM MAX_FACTS localeCompare s ops).
Proof.
  induction ops as [|op ops IH]; intros s Hs Hw; [exact Hs|].
  destruct Hw as [H1 H2]. cbn [run fold_left]. apply IH; auto.
  apply step_ok; assumption.
Qed.

End Operations.

Lemma empty_store_ok : store_ok empty_store.
Proof.
  split.
  - exists []. repeat split; constructor.
  - constructor.
Qed.

(** * The claims *)

(** ** C3: round trip of one record *)

(** C3, as stated, fails: an entry with a multi-line content one line of
    which is [---] does not come back from [serializeEntry] and
    [parseMemoryMd]; the parser ends the record at that line. *)
Lemma C3_terminator_line_in_content :
  parseMemoryMd (ts "03") (serializeEntry ruled_entry) <> [trimmed ruled_entry].
Proof.
  intros H.
  assert (E : map content (parseMemoryMd (ts "03") (serializeEntry ruled_entry))
              = [lit "above"]) by (vm_compute; reflexivity).
  rewrite H in E. vm_compute in E. discriminate E.
Qed.

(** C3, amended: for every well-formed entry (id, type, timestamps and
    source non-empty, on one line and without blanks at the ends; at least
    one tag, every tag such a value without comma; a content that is not
    blank and has no line [---]), parsing the serialization yields exactly
    that entry with its content trimmed, whatever the clock reads. *)
Theorem C3_round_trip_well_formed now e :
  wf_entry e = true -> parseMemoryMd now (serializeEntry e) = [trimmed e].
Proof.
  intros H. rewrite <- (app_nil_r (serializeEntry e)).
  apply parse_serialized; auto.
Qed.

(** C3, amended, at concrete values. *)
Lemma C3_round_trip_witness :
  wf_entry sample_entry = true
  /\ parseMemoryMd (ts "03") (serializeEntry sample_entry) = [trimmed sample_entry].
Proof.
  split; [reflexivity|]. apply (C3_round_trip_well_formed (ts "03") sample_entry).
  reflexivity.
Defined.

(** Beyond the amended C3: an entry without tags is written with the line
    [tags: ], which is not a metadata line for the parser; that line and
    the lines after it are read as content, the timestamps are the reading
    of the clock and the source is [agent]. *)
Lemma untagged_entry_read_back :
  parseMemoryMd (ts "03") (serializeEntry untagged_entry)
  = [ mkEntry (lit "m1") (lit "fact")
        (lit "tags: " ++ [nl] ++ lit "createdAt: " ++ ts "01" ++ [nl]
         ++ lit "updatedAt: " ++ ts "02" ++ [nl] ++ lit "source: user" ++ [nl]
         ++ [nl] ++ lit "likes tea")
        [] (ts "03") (ts "03") (lit "agent") ].
Proof. vm_compute. reflexivity. Qed.

(** ** C10: a save of kind log leaves the long-term file alone *)

(** C10: saving an entry of kind log leaves [MEMORY.md] as it is, hence
    the entries parsed from it at any reading of the clock, and touches no
    daily log but the one of the day. *)
Theorem C10_log_save_frame MAX_FACTS localeCompare clk rnd c i tg src s :
  let s' := snd (save MAX_FACTS localeCompare clk rnd c
                      (mkOpts i (Some (lit "log")) tg src) s) in
  MEMORY_MD s' = MEMORY_MD s
  /\ (forall t, long_term t s' = long_term t s)
  /\ (forall f, fst f <> today (clk 2%nat) ++ lit ".md" ->
                In f (DAILY_DIR s') <-> In f (DAILY_DIR s)).
Proof.
  intros s'.
  destruct (save_log MAX_FACTS localeCompare clk rnd c
                     (mkOpts i (Some (lit "log")) tg src) s eq_refl) as (M & D & _).
  fold s' in M, D. split; [exact M|]. split.
  - intros t. apply long_term_same. exact M.
  - intros f Hf. rewrite D. clear -Hf.
    induction (DAILY_DIR s) as [|[n x] d IH]; simpl.
    + split; [intros [<-|[]]; simpl in Hf; congruence|intros []].
    + destruct (str_eqb n (today (clk 2%nat) ++ lit ".md")) eqn:E.
      * apply str_eqb_eq in E. subst n. simpl.
        split; (intros [<-|H]; [simpl in Hf; congruence|auto]).
      * simpl. rewrite IH. reflexivity.
Qed.

(** ** C8: the short-term window *)

Lemma skipn_S_tl {A} k (l : list A) : skipn (S k) l = tl (skipn k l).
Proof.
  revert l; induction k as [|k IH]; intros [|x l]; try reflexivity.
  rewrite skipn_cons. rewrite IH. reflexivity.
Qed.

Lemma window_after MAX_SHORT_TERM msgs : forall s,
  (0 <= MAX_SHORT_TERM)%Z -> shortTerm s = [] ->
  shortTerm (fold_left (fun s m => addToShortTerm MAX_SHORT_TERM m s) msgs s)
  = skipn (length msgs - Z.to_nat MAX_SHORT_TERM) msgs.
Proof.
  intros s HM Hs. induction msgs as [|m msgs IH] using rev_ind.
  - simpl. exact Hs.
  - rewrite fold_left_app. cbn [fold_left]. unfold addToShortTerm at 1.
    cbn [shortTerm]. rewrite IH. rewrite !length_app, length_skipn. cbn [length].
    set (k := length msgs - Z.to_nat MAX_SHORT_TERM).
    assert (E : skipn k (msgs ++ [m]) = skipn k msgs ++ [m]).
    { rewrite skipn_app. replace (k - length msgs) with 0 by lia. reflexivity. }
    destruct (Z.gtb_spec (Z.of_nat (length msgs - k + 1)) MAX_SHORT_TERM) as [G|G].
    + replace (length msgs + 1 - Z.to_nat MAX_SHORT_TERM) with (S k) by lia.
      rewrite skipn_S_tl, E. reflexivity.
    + replace (length msgs + 1 - Z.to_nat MAX_SHORT_TERM) with k by lia.
      symmetry. exact E.
Qed.

(** C8: for a window capacity that is not negative, after any sequence of
    [addToShortTerm] calls from the empty window the window holds at most
    [MAX_SHORT_TERM] messages: the last [MAX_SHORT_TERM] of the sequence
    (all of them when there are fewer), in arrival order. *)
Theorem C8_window_bounded MAX_SHORT_TERM msgs s :
  (0 <= MAX_SHORT_TERM)%Z -> shortTerm s = [] ->
  let w := shortTerm (fold_left (fun s m => addToShortTerm MAX_SHORT_TERM m s) msgs s) in
  (Z.of_nat (length w) <= MAX_SHORT_TERM)%Z
  /\ w = skipn (length msgs - Z.to_nat MAX_SHORT_TERM) msgs.
Proof.
  intros HM Hs w. unfold w. rewrite window_after by assumption.
  split; [|reflexivity]. rewrite length_skipn. lia.
Qed.

(** C8 at concrete values. *)
Lemma C8_window_witness :
  let w := shortTerm (fold_left (fun s m => addToShortTerm 2 m s) three_messages empty_store) in
  (Z.of_nat (length w) <= 2)%Z /\ w = skipn (3 - Z.to_nat 2) three_messages.
Proof.
  apply (C8_window_bounded 2 three_messages empty_store); [lia|reflexivity].
Defined.

(** ** C2: distinct ids *)

(** C2, as stated, fails: a save of kind log under an id that is already
    in the store appends a second record with that id; [readAllEntries]
    then returns two entries with one id. *)
Lemma C2_log_saved_twice_under_one_id :
  ~ NoDup (map id (readAllEntries (ts "03")
                     (run 20 200 compareCodeUnits empty_store two_logs_one_id))).
Proof.
  assert (E : map id (readAllEntries (ts "03")
                        (run 20 200 compareCodeUnits empty_store two_logs_one_id))
              = [lit "L1"; lit "L1"]) by (vm_compute; reflexivity).
  rewrite E. intros H. inversion H as [|? ? Hn _]. apply Hn. left. reflexivity.
Qed.

(** C2, amended: in every state that a sequence of well-formed [save],
    [forget], [flushSession] and [addToShortTerm] calls produces from the
    empty store, the ids of the entries of the long-term partition are
    pairwise distinct at every reading of the clock.  (The daily logs may
    repeat an id, among themselves and with the long-term partition.) *)
Theorem C2_long_term_ids_distinct MAX_SHORT_TERM MAX_FACTS localeCompare ops t :
  wf_run MAX_SHORT_TERM MAX_FACTS localeCompare empty_store ops ->
  NoDup (map id (long_term t (run MAX_SHORT_TERM MAX_FACTS localeCompare empty_store ops))).
Proof.
  intros H.
  destruct (run_ok MAX_SHORT_TERM MAX_FACTS localeCompare ops empty_store
                   empty_store_ok H) as [(es & Hes & _ & Hnd) _].
  rewrite Hes. exact Hnd.
Qed.

Lemma wf_clock_at_time d : wf_meta (ts d) = true -> wf_tag (today (ts d)) = true ->
  wf_clock (at_time (ts d)).
Proof. intros H1 H2 k. split; assumption. Qed.

(** C2, amended, at concrete values. *)
Lemma C2_long_term_ids_witness :
  wf_run 20 200 compareCodeUnits empty_store two_facts_one_id
  /\ NoDup (map id (long_term (ts "05")
                      (run 20 200 compareCodeUnits empty_store two_facts_one_id))).
Proof.
  assert (W : wf_run 20 200 compareCodeUnits empty_store two_facts_one_id).
  { repeat split;
      try (apply wf_clock_at_time; reflexivity); vm_compute; reflexivity. }
  split; [exact W|].
  apply (C2_long_term_ids_distinct 20 200 compareCodeUnits two_facts_one_id (ts "05") W).
Defined.

(** ** C9: forget *)

Lemma filter_one_out (i : str) es :
  NoDup (map id es) -> In i (map id es) ->
  exists l1 e l2, es = l1 ++ e :: l2 /\ id e = i
    /\ filter (fun x => negb (str_eqb (id x) i)) es = l1 ++ l2.
Proof.
  induction es as [|x es IH]; simpl; [intros _ []|]. intros Hnd Hin.
  inversion Hnd as [|? ? Hx Hes]; subst.
  destruct (str_eqb (id x) i) eqn:E.
  - apply str_eqb_eq in E. exists [], x, es. repeat split; auto. simpl.
    clear -Hx E. subst i. induction es as [|y es IH]; simpl; auto.
    simpl in Hx. destruct (str_eqb (id y) (id x)) eqn:F.
    + apply str_eqb_eq in F. exfalso. apply Hx. left. exact F.
    + simpl. f_equal. apply IH. intros H. apply Hx. right. exact H.
  - destruct Hin as [Hin|Hin]; [apply str_eqb_neq in E; congruence|].
    destruct (IH Hes Hin) as (l1 & e & l2 & -> & He & Hf).
    exists (x :: l1), e, l2. repeat split; auto. simpl. rewrite Hf. reflexivity.
Qed.

(** C9, amended: on a store whose long-term file holds well-formed
    entries with distinct ids, [forget(id)] returns [true] exactly when an
    entry of the long-term partition has that id; it then removes that one
    entry and leaves the others as they were; when it returns [false] the
    store is unchanged; the daily logs are never touched. *)
Theorem C9_forget_on_well_formed_store clk i s es :
  (forall t, long_term t s = es) ->
  Forall (fun e => wf_stored e = true) es -> NoDup (map id es) ->
  no_lt (clk 1%nat) = true ->
  let r := forget clk i s in
  (fst r = true <-> In i (map id es))
  /\ (fst r = true ->
      exists l1 e l2, es = l1 ++ e :: l2 /\ id e = i
                      /\ forall t, long_term t (snd r) = l1 ++ l2)
  /\ (fst r = false -> snd r = s)
  /\ DAILY_DIR (snd r) = DAILY_DIR s.
Proof.
  intros Hes Hw Hnd Hc r.
  destruct (forget_spec clk i s es Hes Hw Hc) as (H1 & H2 & H3 & H4 & _).
  fold r in H1, H2, H3, H4. repeat split; try tauto.
  intros Hr. destruct (filter_one_out i es Hnd (proj1 H1 Hr)) as (l1 & e & l2 & E & Hi & Hf).
  exists l1, e, l2. repeat split; auto. intros t. rewrite H2 by exact Hr. exact Hf.
Qed.

Section Claims.

Variable MAX_SHORT_TERM : Z.
Variable MAX_FACTS : Z.
Variable localeCompare : str -> str -> Z.

(** ** C7: flushSession *)

Lemma endsWith_app a p : endsWith p (a ++ p) = true.
Proof. unfold endsWith. rewrite rev_app_distr. apply startsWith_app. Qed.

Lemma daily_insert t dir name text e :
  endsWith (lit ".md") name = true ->
  parseMemoryMd t text = [e] ->
  (forall raw, In (name, raw) dir ->
               parseMemoryMd t (raw ++ text) = parseMemoryMd t raw ++ [e]) ->
  exists l1 l2,
    flat_map (fun f => parseMemoryMd t (snd f))
      (filter (fun f => endsWith (lit ".md") (fst f)) dir) = l1 ++ l2
    /\ flat_map (fun f => parseMemoryMd t (snd f))
         (filter (fun f => endsWith (lit ".md") (fst f)) (appendFile dir name text))
       = l1 ++ e :: l2.
Proof.
  intros Hn Ht Ha. induction dir as [|[n c] d IH]; simpl.
  - rewrite Hn. simpl. rewrite Ht. exists [], []. auto.
  - destruct (str_eqb n name) eqn:E.
    + apply str_eqb_eq in E. subst n. simpl. rewrite Hn. simpl.
      rewrite Ha by (left; reflexivity).
      exists (parseMemoryMd t c), (flat_map (fun f => parseMemoryMd t (snd f))
              (filter (fun f => endsWith (lit ".md") (fst f)) d)).
      split; auto. rewrite <- app_assoc. reflexivity.
    + destruct IH as (l1 & l2 & E1 & E2).
      { intros raw Hin. apply Ha. right. exact Hin. }
      simpl. destruct (endsWith (lit ".md") n); simpl.
      * exists (parseMemoryMd t c ++ l1), l2. rewrite E1, E2, <- !app_assoc. auto.
      * exists l1, l2. auto.
Qed.


(** ** C5: saving twice under one id *)

Lemma upsert_entry_length_others e es :
  NoDup (map id es) ->
  length (upsert_entry e es)
  = S (length (filter (fun x => negb (str_eqb (id x) (id e))) es)).
Proof.
  induction es as [|y es IH]; simpl; intros H; auto.
  inversion H as [|? ? Hy Hes]; subst.
  destruct (str_eqb (id y) (id e)) eqn:E; simpl.
  - f_equal. f_equal. symmetry.
    assert (G : forall x, In x es -> negb (str_eqb (id x) (id e)) = true).
    { intros x Hx. apply negb_true_iff, str_eqb_neq. intros F.
      apply str_eqb_eq in E. apply Hy. rewrite E, <- F. apply in_map. exact Hx. }
    clear -G. induction es as [|x es IH]; simpl; auto.
    rewrite G by (left; reflexivity). f_equal. apply IH.
    intros z Hz. apply G. right. exact Hz.
  - rewrite IH by assumption. reflexivity.
Qed.

Lemma Permutation_filter_length {A} (f : A -> bool) l l' :
  Permutation l l' -> length (filter f l) = length (filter f l').
Proof.
  induction 1; simpl; auto.
  - destruct (f x); simpl; auto.
  - destruct (f x), (f y); reflexivity.
  - congruence.
Qed.

Lemma unique_id x y l :
  NoDup (map id l) -> In x l -> In y l -> id x = id y -> x = y.
Proof.
  induction l as [|z l IH]; simpl; [intros _ []|]. intros H Hx Hy E.
  inversion H as [|? ? Hz Hl]; subst.
  destruct Hx as [->|Hx], Hy as [->|Hy]; auto.
  - exfalso. apply Hz. rewrite E. apply in_map. exact Hy.
  - exfalso. apply Hz. rewrite <- E. apply in_map. exact Hx.
Qed.



Lemma find_unique (i : str) e l r :
  NoDup (map id l) -> In e l -> id e = i ->
  find (fun x => str_eqb (id x) i) (l ++ r) = Some e.
Proof.
  intros Hnd Hin Hi.
  destruct (find (fun x => str_eqb (id x) i) (l ++ r)) as [x|] eqn:F.
  - f_equal.
    assert (Hx : In x l /\ id x = i).
    { clear Hnd. induction l as [|z l IH]; [destruct Hin|]. simpl in F.
      destruct (str_eqb (id z) i) eqn:G.
      - injection F as <-. apply str_eqb_eq in G. split; [left; reflexivity|exact G].
      - destruct Hin as [->|Hin]; [rewrite Hi, str_eqb_refl in G; discriminate|].
        destruct (IH Hin F). split; [right|]; assumption. }
    destruct Hx as [Hx Hxi]. apply (unique_id x e l); congruence.
  - exfalso. pose proof (find_none _ _ F e (in_or_app _ _ _ (or_introl Hin))) as K.
    cbv beta in K. rewrite Hi, str_eqb_refl in K. discriminate K.
Qed.

(** Without trimming, [upsertLongTerm] keeps every entry. *)
Lemma kept_all e es :
  NoDup (map id es) ->
  (Z.of_nat (length (filter (fun x => negb (str_eqb (id x) (id e))) es)) < MAX_FACTS)%Z ->
  kept MAX_FACTS localeCompare e es
  = sort_by_updatedAt localeCompare (upsert_entry e es).
Proof.
  intros Hnd Hl. unfold kept. apply slice_from_all.
  rewrite (Permutation_length (sort_perm localeCompare _)).
  rewrite upsert_entry_length_others by exact Hnd. lia.
Qed.

Lemma kept_all_has e es :
  NoDup (map id es) ->
  (Z.of_nat (length (filter (fun x => negb (str_eqb (id x) (id e))) es)) < MAX_FACTS)%Z ->
  In e (kept MAX_FACTS localeCompare e es)
  /\ length (filter (fun x => negb (str_eqb (id x) (id e)))
               (kept MAX_FACTS localeCompare e es))
     = length (filter (fun x => negb (str_eqb (id x) (id e))) es).
Proof.
  intros Hnd Hl. rewrite kept_all by assumption. split.
  - apply (Permutation_in _ (Permutation_sym (sort_perm localeCompare _))).
    apply upsert_entry_has.
  - rewrite (Permutation_filter_length _ _ _ (sort_perm localeCompare _)).
    rewrite upsert_entry_others by exact Hnd. reflexivity.
Qed.


(** ** C4: trimming *)

(** A consistent comparison function. *)
Hypothesis compare_flip : forall a b, (localeCompare a b > 0)%Z -> (localeCompare b a <= 0)%Z.
Hypothesis compare_trans : forall a b c,
  (localeCompare a b <= 0)%Z -> (localeCompare b c <= 0)%Z -> (localeCompare a c <= 0)%Z.
Hypothesis capacity : (0 < MAX_FACTS)%Z.






End Claims.

(** * The claims at concrete values *)

Lemma compareCodeUnits_opp a : forall b, compareCodeUnits b a = (- compareCodeUnits a b)%Z.
Proof.
  induction a as [|x a IH]; intros [|y b]; simpl; auto.
  rewrite (N.eqb_sym y x). destruct (N.eqb_spec x y) as [E|E]; auto.
  destruct (N.ltb_spec x y), (N.ltb_spec y x); auto; lia.
Qed.

Lemma compareCodeUnits_flip a b :
  (compareCodeUnits a b > 0)%Z -> (compareCodeUnits b a <= 0)%Z.
Proof. rewrite (compareCodeUnits_opp a b). lia. Qed.

Lemma compareCodeUnits_trans a : forall b c,
  (compareCodeUnits a b <= 0)%Z -> (compareCodeUnits b c <= 0)%Z ->
  (compareCodeUnits a c <= 0)%Z.
Proof.
  induction a as [|x a IH]; intros [|y b] [|z c]; simpl; try lia.
  destruct (N.eqb_spec x y), (N.ltb_spec x y), (N.eqb_spec y z), (N.ltb_spec y z),
    (N.eqb_spec x z), (N.ltb_spec x z); subst; try lia; intros; try lia.
  eapply IH; eassumption.
Qed.


(** ** C4 *)


(** Beyond the amended C4: with [MAX_FACTS] 2, after three saves under
    distinct ids of which the last has a blank content, the long-term
    partition holds one entry, not two: the parser skips the record with
    the empty content that [save] wrote. *)
Lemma blank_content_falls_short :
  Z.of_nat (length (long_term (ts "04")
                      (snd (save_all 2 compareCodeUnits two_facts_and_a_blank empty_store))))
  <> 2%Z.
Proof. vm_compute. discriminate. Qed.

(** Beyond the amended C4: saved without tags, the records are read back
    with the reading of the clock for [updatedAt] (their [updatedAt] lines
    are read as content).  When the clock advances during a call, the
    entries read from the file sort after the entry being saved: with
    [MAX_FACTS] 2, the third of three such saves drops the entry it saves
    and keeps the two older ones. *)
Lemma untagged_saves_drop_the_newest :
  let r := save_all 2 compareCodeUnits three_untagged_facts empty_store in
  map id (fst r) = [lit "F1"; lit "F2"; lit "F3"]
  /\ map id (long_term (ts "04") (snd r)) = [lit "F2"; lit "F1"].
Proof. vm_compute. split; reflexivity. Qed.


(** ** C5 *)



(** Beyond the amended C5: saved without tags, the record of the first
    call is read back with the reading of the clock for [createdAt] (its
    [createdAt] line is read as content), so the entry that the second call
    returns is created at the time of the second call. *)
Lemma untagged_save_twice :
  let r1 := save 200 compareCodeUnits (at_time (ts "01")) (lit "u1") (lit "likes tea")
                 (untagged_options "F1") empty_store in
  let r2 := save 200 compareCodeUnits (at_time (ts "02")) (lit "u2") (lit "likes tea")
                 (untagged_options "F1") (snd r1) in
  createdAt (fst r1) = ts "01" /\ createdAt (fst r2) = ts "02".
Proof. vm_compute. split; reflexivity. Qed.

(** ** C7 *)



(** ** C9 *)

(** C9, as stated, fails: in a long-term file that holds two records
    under the id, [forget] removes both, not exactly one entry. *)
Lemma C9_two_records_under_the_id :
  let s := store_with_two_records_under_one_id in
  let r := forget (at_time (ts "02")) (lit "F1") s in
  ~ (fst r = true ->
     exists l1 e l2, long_term (ts "03") s = l1 ++ e :: l2 /\ id e = lit "F1"
                     /\ long_term (ts "03") (snd r) = l1 ++ l2).
Proof.
  intros s r H.
  assert (E1 : fst r = true) by (vm_compute; reflexivity).
  assert (E2 : length (long_term (ts "03") s) = 2) by (vm_compute; reflexivity).
  assert (E3 : long_term (ts "03") (snd r) = []) by (vm_compute; reflexivity).
  destruct (H E1) as (l1 & e & l2 & A & _ & B).
  rewrite E3 in B. rewrite A in E2. rewrite length_app in E2. simpl in E2.
  symmetry in B. apply app_eq_nil in B. destruct B as [-> ->]. simpl in E2. lia.
Qed.

(** C9, amended, at concrete values. *)
Lemma C9_forget_witness :
  let r := forget (at_time (ts "02")) (lit "F1") store_with_one_fact in
  (fst r = true <-> In (lit "F1") (map id [the_one_fact]))
  /\ (fst r = true ->
      exists l1 e l2, [the_one_fact] = l1 ++ e :: l2 /\ id e = lit "F1"
                      /\ forall t, long_term t (snd r) = l1 ++ l2)
  /\ (fst r = false -> snd r = store_with_one_fact)
  /\ DAILY_DIR (snd r) = DAILY_DIR store_with_one_fact.
Proof.
  apply (C9_forget_on_well_formed_store (at_time (ts "02")) (lit "F1")
           store_with_one_fact [the_one_fact]).
  - intros t. vm_compute. reflexivity.
  - repeat constructor.
  - repeat constructor. simpl. tauto.
  - reflexivity.
Defined.

(** * Search *)






(** *** The characters of a bound string *)


















(** * The index *)




Lemma filter_fresh (i : str) l :
  ~ In i (map id l) -> filter (fun e => negb (str_eqb (id e) i)) l = l.
Proof.
  induction l as [|x l IH]; simpl; auto. intros H.
  destruct (str_eqb (id x) i) eqn:E.
  - apply str_eqb_eq in E. tauto.
  - simpl. rewrite IH; auto.
Qed.

Lemma filter_others_ids (i : str) l :
  ~ In i (map id (filter (fun e => negb (str_eqb (id e) i)) l)).
Proof.
  intros H. apply in_map_iff in H. destruct H as (x & Hx & H).
  apply filter_In in H. destruct H as [_ H]. rewrite Hx, str_eqb_refl in H.
  discriminate.
Qed.

Lemma upsert_entry_perm e es :
  NoDup (map id es) ->
  Permutation (upsert_entry e es)
              (e :: filter (fun x => negb (str_eqb (id x) (id e))) es).
Proof.
  induction es as [|y es IH]; simpl; intros H; auto.
  inversion H as [|? ? Hy Hes]; subst.
  destruct (str_eqb (id y) (id e)) eqn:E; simpl.
  - apply str_eqb_eq in E. rewrite filter_fresh; auto. rewrite <- E. exact Hy.
  - rewrite (IH Hes). apply perm_swap.
Qed.


Lemma save_rows MAX_FACTS localeCompare clk rnd c o s :
  let r := save MAX_FACTS localeCompare clk rnd c o s in
  memory_fts (snd r) = delete_rows (id (fst r)) (memory_fts s) ++ [row_of (fst r)].
Proof.
  unfold save. cbn [fst snd memory_fts].
  destruct (str_eqb _ (lit "log")); reflexivity.
Qed.


Lemma log_ok_closed s name raw :
  logs_ok s -> In (name, raw) (DAILY_DIR s) -> closed raw.
Proof.
  unfold logs_ok. rewrite Forall_forall. intros H Hin.
  destruct (H _ Hin) as [Hc _]. exact Hc.
Qed.

Lemma daily_logs_indep s :
  logs_ok s -> exists ls, forall t, daily_logs t s = ls.
Proof.
  unfold logs_ok, daily_logs. induction 1 as [|f d (_ & es & Hes & _) _ (ls & IH)].
  - exists []. reflexivity.
  - simpl. destruct (endsWith (lit ".md") (fst f)).
    + exists (es ++ ls). intros t. simpl. rewrite Hes, IH. reflexivity.
    + exists ls. exact IH.
Qed.

Lemma readAllEntries_indep s :
  store_ok s -> exists all, forall t, readAllEntries t s = all.
Proof.
  intros [(es & Hes & _) Hl]. destruct (daily_logs_indep s Hl) as (ls & Hls).
  exists (es ++ ls). intros t. rewrite readAllEntries_split, Hes, Hls. reflexivity.
Qed.

Section Index.

Variable MAX_SHORT_TERM : Z.
Variable MAX_FACTS : Z.
Variable localeCompare : str -> str -> Z.





Lemma init_ok clk s :
  store_ok s -> wf_clock clk -> store_ok (init clk s).
Proof.
  intros [Hlt Hlogs] Hc. unfold init, rebuildIndex. cbn [MEMORY_MD DAILY_DIR].
  destruct (MEMORY_MD s) as [raw|] eqn:M.
  - apply (store_ok_files s); cbn [MEMORY_MD DAILY_DIR]; auto. split; assumption.
  - split.
    + exists []. repeat split; try constructor. intros t.
      unfold long_term. cbn [MEMORY_MD].
      apply parse_header; [apply wf_label_created|apply wf_clock_no_lt; exact Hc].
    + exact Hlogs.
Qed.






End Index.

(** ** C1 at concrete values *)



(** Beyond the amended C1: with [MAX_FACTS] 2, after [init] and three saves
    under distinct ids, [upsertLongTerm] has dropped the oldest entry from
    [MEMORY.md], but no call removes its row: the index updated call by
    call holds three rows, the index rebuilt from the store two. *)
Lemma index_keeps_the_trimmed_entry :
  let s := run 20 2 compareCodeUnits (init (at_time (ts "01")) empty_store)
               three_fact_saves in
  map r_id (memory_fts s) = [lit "F1"; lit "F2"; lit "F3"]
  /\ map r_id (memory_fts (rebuildIndex (ts "05") s)) = [lit "F2"; lit "F3"].
Proof. vm_compute. split; reflexivity. Qed.

(** * Further properties of the code *)

(** ** The record format *)

Lemma existsb_join_any (P : N -> bool) sep l :
  existsb P (join [] l) = true -> existsb P (join sep l) = true.
Proof.
  induction l as [|x l IH]; [discriminate|].
  destruct l as [|y l]; [auto|].
  rewrite (join_cons [] x) by discriminate. rewrite (join_cons sep x) by discriminate.
  rewrite !existsb_app. intros H.
  apply orb_true_iff in H. destruct H as [H|H].
  - rewrite H. reflexivity.
  - simpl in H. rewrite (IH H). rewrite !orb_true_r. reflexivity.
Qed.

Lemma no_lt_trimStart s : no_lt s = true -> no_lt (trimStart s) = true.
Proof.
  unfold no_lt. induction s as [|c s IH]; simpl; auto.
  intros H. apply andb_true_iff in H. destruct H as [H1 H2].
  destruct (is_ws c); [auto|]. simpl. rewrite H1, H2. reflexivity.
Qed.

Lemma no_lt_trimEnd s : no_lt s = true -> no_lt (trimEnd s) = true.
Proof.
  unfold no_lt. induction s as [|c s IH]; simpl; auto.
  intros H. apply andb_true_iff in H. destruct H as [H1 H2].
  destruct (is_ws c && is_empty (trimEnd s)); [reflexivity|].
  simpl. rewrite H1, (IH H2). reflexivity.
Qed.

Lemma no_lt_trim s : no_lt s = true -> no_lt (trim s) = true.
Proof. intros H. unfold trim. apply no_lt_trimStart, no_lt_trimEnd, H. Qed.

Lemma skip_key_split s :
  exists key, s = key ++ skip_key s /\ forallb is_key_char key = true.
Proof.
  induction s as [|c s (key & E & K)]; [exists []; auto|].
  simpl. destruct (is_key_char c) eqn:Hc.
  - exists (c :: key). simpl. rewrite Hc, K. split; [f_equal; exact E|reflexivity].
  - exists []. auto.
Qed.

Lemma is_key_char_not_lt c : is_key_char c = true -> is_lt c = false.
Proof.
  unfold is_key_char, is_lt. intros H.
  destruct (N.eqb_spec c 10), (N.eqb_spec c 13), (N.eqb_spec c 8232), (N.eqb_spec c 8233);
    subst; try discriminate; reflexivity.
Qed.

Lemma is_meta_line_no_lt line : is_meta_line line = true -> no_lt line = true.
Proof.
  unfold is_meta_line. destruct line as [|c l]; [discriminate|].
  intros H. apply andb_true_iff in H. destruct H as [_ H].
  destruct (skip_key_split (c :: l)) as (key & E & K).
  destruct (skip_key (c :: l)) as [|x r]; [discriminate|].
  destruct x as [|p]; [discriminate|].
  repeat (destruct p as [p|p|]; try discriminate).
  destruct r as [|y v]; [discriminate|].
  destruct y as [|p]; [discriminate|].
  repeat (destruct p as [p|p|]; try discriminate).
  apply andb_true_iff in H. destruct H as [_ H].
  rewrite E. unfold no_lt. rewrite forallb_app. apply andb_true_iff. split.
  - rewrite forallb_forall in *. intros z Hz. rewrite is_key_char_not_lt; auto.
  - simpl. exact H.
Qed.

Lemma parse_line_values st line :
  Forall (fun kv : list N * list N => no_lt (snd kv) = true /\ trim (snd kv) = snd kv)
         (ls_meta st) ->
  Forall (fun kv : list N * list N => no_lt (snd kv) = true /\ trim (snd kv) = snd kv)
         (ls_meta (parse_line st line)).
Proof.
  intros H. unfold parse_line. destruct (inContent st); [exact H|].
  destruct (startsWith (lit "<!--") line && endsWith (lit "-->") line); [exact H|].
  destruct (is_meta_line line) eqn:Hm; [|exact H].
  destruct (split (lit ": ") line) as [|k rest] eqn:Hs; [exact H|].
  cbn [ls_meta]. constructor; [|exact H]. cbn [snd]. split; [|apply trim_idem].
  apply no_lt_trim. apply is_meta_line_no_lt in Hm.
  assert (E : join (lit ": ") (k :: rest) = line)
    by (rewrite <- Hs; apply join_split; discriminate).
  destruct rest as [|r rest]; [reflexivity|].
  rewrite join_cons in E by discriminate. rewrite <- E in Hm.
  rewrite !no_lt_app in Hm. apply andb_true_iff in Hm. destruct Hm as [_ Hm].
  apply andb_true_iff in Hm. destruct Hm as [_ Hm]. exact Hm.
Qed.

Lemma parse_lines_values ls : forall st,
  Forall (fun kv : list N * list N => no_lt (snd kv) = true /\ trim (snd kv) = snd kv)
         (ls_meta st) ->
  Forall (fun kv : list N * list N => no_lt (snd kv) = true /\ trim (snd kv) = snd kv)
         (ls_meta (fold_left parse_line ls st)).
Proof.
  induction ls as [|l ls IH]; intros st H; [exact H|].
  simpl. apply IH, parse_line_values, H.
Qed.

Lemma meta_get_In m k v : meta_get m k = Some v -> exists k', In (k', v) m.
Proof.
  induction m as [|[k' v'] m IH]; [discriminate|]. simpl.
  destruct (str_eqb k' k).
  - intros E. injection E as E. subst. exists k'. left. reflexivity.
  - intros E. destruct (IH E) as (k0 & Hk). exists k0. right. exact Hk.
Qed.

Lemma parse_block_guard now block e :
  parse_block now block = Some e ->
  wf_meta (id e) = true /\ content e <> [] /\ trim (content e) = content e
  /\ Forall (fun t => trim t = t) (tags e).
Proof.
  unfold parse_block.
  set (st := fold_left parse_line (split [nl] block) (mkLS [] [] false)).
  assert (V : Forall (fun kv : list N * list N =>
                        no_lt (snd kv) = true /\ trim (snd kv) = snd kv) (ls_meta st))
    by (apply parse_lines_values; constructor).
  destruct (negb (truthy (meta_get (ls_meta st) (lit "id")))
            || is_empty (trim (join [] (contentLines st)))) eqn:G; [discriminate|].
  apply orb_false_iff in G. destruct G as [G1 G2]. apply negb_false_iff in G1.
  intros E. injection E as E. subst e. cbn [id content tags].
  repeat split.
  - destruct (meta_get (ls_meta st) (lit "id")) as [[|c v]|] eqn:Hid; try discriminate.
    cbn [nullish]. destruct (meta_get_In _ _ _ Hid) as (k' & Hin).
    rewrite Forall_forall in V. destruct (V _ Hin) as [V1 V2]. cbn [snd] in V1, V2.
    unfold wf_meta. rewrite V1, V2. cbn [is_empty negb andb]. apply str_eqb_refl.
  - apply trim_nonblank. apply existsb_join_any.
    apply trim_nonblank. intros E. rewrite E in G2. discriminate.
  - apply trim_idem.
  - destruct (truthy (meta_get (ls_meta st) (lit "tags"))); [|constructor].
    apply Forall_forall. intros t Ht. apply in_map_iff in Ht.
    destruct Ht as (x & <- & _). apply trim_idem.
Qed.

(** X1: whatever the text and the clock, every entry that [parseMemoryMd]
    returns has an id that is not empty, on one line and without blanks at
    its ends, a content that is not empty and is trimmed, and trimmed
    tags. *)
Theorem parsed_entries_pass_the_guard now raw :
  Forall (fun e => wf_meta (id e) = true /\ content e <> []
                   /\ trim (content e) = content e
                   /\ Forall (fun t => trim t = t) (tags e))
         (parseMemoryMd now raw).
Proof.
  apply Forall_forall. intros e H. unfold parseMemoryMd in H. apply in_flat_map in H.
  destruct H as (b & _ & H). destruct (parse_block now b) as [x|] eqn:Hb; [|destruct H].
  destruct H as [<-|[]]. exact (parse_block_guard _ _ _ Hb).
Qed.

Lemma is_ws_not_dash c : is_ws c = true -> N.eqb c dash = false.
Proof.
  intros H. destruct (N.eqb_spec c dash) as [->|]; [discriminate H|reflexivity].
Qed.

Lemma pieces_no_sep s : forall bol, has_sep bol s = false -> pieces bol s = [s].
Proof.
  induction s as [|c s IH]; intros bol H; [apply pieces_nil|].
  cbn [has_sep] in H. apply orb_false_iff in H. destruct H as [H1 H2].
  rewrite pieces_other by exact H1. rewrite (IH _ H2). reflexivity.
Qed.

Lemma has_sep_blank s : forall bol, forallb is_ws s = true -> has_sep bol s = false.
Proof.
  induction s as [|c s IH]; intros bol H; [reflexivity|].
  simpl in H. apply andb_true_iff in H. destruct H as [Hc Hs].
  cbn [has_sep]. rewrite (IH _ Hs), orb_false_r.
  destruct bol; [|reflexivity]. cbn [andb]. unfold sep_here.
  destruct s as [|b [|c' r]]; try reflexivity.
  rewrite (is_ws_not_dash c Hc). reflexivity.
Qed.

(** X2: a text of blanks and line terminators only, the empty file in
    particular, holds no
    entry. *)
Theorem blank_text_has_no_entry now raw :
  forallb is_ws raw = true -> parseMemoryMd now raw = [].
Proof.
  intros H. unfold parseMemoryMd. change split_blocks with (pieces true).
  rewrite pieces_no_sep by (apply has_sep_blank; exact H).
  cbn [map]. rewrite trim_blank by exact H. reflexivity.
Qed.

(** X2 at concrete values. *)
Lemma blank_text_witness :
  forallb is_ws (lit "  " ++ [nl; nl]) = true
  /\ parseMemoryMd (ts "01") (lit "  " ++ [nl; nl]) = [].
Proof.
  split; [reflexivity|]. apply (blank_text_has_no_entry (ts "01") (lit "  " ++ [nl; nl])).
  reflexivity.
Defined.

(** X3: when a text ends with a terminator line and its line terminator,
    the entries of the text with more text appended are the entries of the
    text followed by the entries of what was appended: an append never
    changes what was already stored. *)
Theorem parse_after_closed_text now a r :
  closedb a = true ->
  parseMemoryMd now (a ++ r) = parseMemoryMd now a ++ parseMemoryMd now r.
Proof. intros H. apply parseMemoryMd_app, closedb_closed, H. Qed.

(** X3 at concrete values. *)
Lemma parse_after_closed_witness :
  closedb (serializeEntry sample_entry ++ [nl]) = true
  /\ parseMemoryMd (ts "03") ((serializeEntry sample_entry ++ [nl])
                              ++ serializeEntry ruled_entry)
     = parseMemoryMd (ts "03") (serializeEntry sample_entry ++ [nl])
       ++ parseMemoryMd (ts "03") (serializeEntry ruled_entry).
Proof.
  split; [reflexivity|].
  apply (parse_after_closed_text (ts "03") (serializeEntry sample_entry ++ [nl])
           (serializeEntry ruled_entry)).
  reflexivity.
Defined.

(** X4: the file that [upsertLongTerm] and [forget] write, the header
    followed by the serialized entries joined by line feeds, is read back
    as those entries with their contents trimmed, in order, for entries that
    are well-formed and a header timestamp on one line. *)
Theorem long_term_file_round_trip t now es :
  no_lt now = true -> Forall (fun e => wf_entry e = true) es ->
  parseMemoryMd t (long_term_header (lit "Last updated: ") now
                   ++ join [nl] (map serializeEntry es))
  = map trimmed es.
Proof. intros Hn He. apply parse_long_term; auto using wf_label_updated. Qed.

(** X4 at concrete values. *)
Lemma long_term_file_witness :
  no_lt (ts "05") = true
  /\ Forall (fun e => wf_entry e = true) [sample_entry; the_one_fact]
  /\ parseMemoryMd (ts "06")
       (long_term_header (lit "Last updated: ") (ts "05")
        ++ join [nl] (map serializeEntry [sample_entry; the_one_fact]))
     = map trimmed [sample_entry; the_one_fact].
Proof.
  assert (F : Forall (fun e => wf_entry e = true) [sample_entry; the_one_fact])
    by (repeat constructor).
  split; [reflexivity|]. split; [exact F|].
  apply (long_term_file_round_trip (ts "06") (ts "05") [sample_entry; the_one_fact]).
  - reflexivity.
  - exact F.
Defined.

(** X5: a block whose first line is neither a metadata line nor an HTML
    comment yields no entry: every line of it is read as content and no id
    is found. *)
Theorem block_without_metadata now block :
  let first := hd [] (split [nl] block) in
  is_meta_line first = false ->
  startsWith (lit "<!--") first && endsWith (lit "-->") first = false ->
  parse_block now block = None.
Proof.
  intros first Hm Hc. unfold parse_block. subst first.
  destruct (split [nl] block) as [|l ls] eqn:E.
  { exfalso. revert E. apply split_not_nil. }
  cbn [hd] in Hm, Hc. cbn [fold_left].
  assert (P : parse_line (mkLS [] [] false) l = mkLS [] [l] true).
  { unfold parse_line. cbn [inContent]. rewrite Hc, Hm. reflexivity. }
  rewrite P. rewrite parse_lines_content by reflexivity. reflexivity.
Qed.

(** X5 at concrete values. *)
Lemma block_without_metadata_witness :
  let block := lit "Remember to water the plants" ++ [nl] ++ lit "id: m1" in
  let first := hd [] (split [nl] block) in
  is_meta_line first = false
  /\ startsWith (lit "<!--") first && endsWith (lit "-->") first = false
  /\ parse_block (ts "01") block = None.
Proof.
  split; [reflexivity|]. split; [reflexivity|].
  apply (block_without_metadata (ts "01")
           (lit "Remember to water the plants" ++ [nl] ++ lit "id: m1")); reflexivity.
Defined.

Lemma trimEnd_cons_nonws c s : is_ws c = false -> trimEnd (c :: s) = c :: trimEnd s.
Proof. intros H. cbn [trimEnd]. rewrite H. reflexivity. Qed.

Lemma parse_block_comment now cm block :
  forallb (fun y => negb (N.eqb nl y)) cm = true ->
  startsWith (lit "<!--") cm && endsWith (lit "-->") cm = true ->
  parse_block now (cm ++ nl :: block) = parse_block now block.
Proof.
  intros Hn Hc. unfold parse_block. rewrite split1_app by exact Hn.
  cbn [fold_left].
  assert (P : parse_line (mkLS [] [] false) cm = mkLS [] [] false).
  { unfold parse_line. cbn [inContent]. rewrite Hc. reflexivity. }
  rewrite P. reflexivity.
Qed.

(** X6: a line that is an HTML comment, put before the metadata of a
    record, is skipped: a well-formed entry is read back from its
    serialization with such a line in front. *)
Theorem comment_line_before_record now cm e :
  wf_entry e = true -> no_lt cm = true ->
  startsWith (lit "<!--") cm && endsWith (lit "-->") cm = true ->
  parseMemoryMd now (cm ++ nl :: serializeEntry e) = [trimmed e].
Proof.
  intros He Hn Hc.
  assert (S : exists cm0, cm = 60%N :: cm0).
  { apply andb_true_iff in Hc. destruct Hc as [Hc _].
    apply startsWith_true in Hc. rewrite Hc. eexists. reflexivity. }
  destruct S as (cm0 & S).
  destruct (parse_block_wf now e He) as (Hne & Hp).
  assert (Hb : exists c b, block_text e = c :: b /\ is_ws c = false).
  { rewrite block_text_eq. exists 105%N. eexists. split; reflexivity. }
  destruct Hb as (c & b & Eb & Hws).
  assert (T : trim (cm ++ nl :: block_text e) = cm ++ nl :: trim (block_text e)).
  { rewrite S. cbn [app]. rewrite trim_cons_nonws by reflexivity. f_equal.
    change (cm0 ++ nl :: block_text e) with (cm0 ++ [nl] ++ block_text e).
    rewrite app_assoc. rewrite Eb.
    rewrite trim_cons_nonws by exact Hws.
    rewrite trimEnd_app by (rewrite trimEnd_cons_nonws by exact Hws; discriminate).
    rewrite trimEnd_cons_nonws by exact Hws. rewrite <- app_assoc. reflexivity. }
  unfold parseMemoryMd. change split_blocks with (pieces true).
  rewrite (pieces_line cm true nl (serializeEntry e)).
  - rewrite <- (app_nil_r (serializeEntry e)).
    rewrite pieces_block by auto. cbn [map]. rewrite T.
    change (trim []) with (@nil N).
    assert (N0 : is_empty (cm ++ nl :: trim (block_text e)) = false)
      by (rewrite S; reflexivity).
    cbn [filter]. rewrite N0. cbn [negb is_empty flat_map].
    rewrite parse_block_comment by (auto using no_lt_no_nl).
    rewrite Hp. reflexivity.
  - rewrite S. apply has_sep_one_line; [reflexivity|]. rewrite <- S. exact Hn.
  - reflexivity.
Qed.

(** X6 at concrete values. *)
Lemma comment_line_witness :
  wf_entry sample_entry = true /\ no_lt (lit "<!-- pinned -->") = true
  /\ startsWith (lit "<!--") (lit "<!-- pinned -->")
     && endsWith (lit "-->") (lit "<!-- pinned -->") = true
  /\ parseMemoryMd (ts "03") (lit "<!-- pinned -->" ++ nl :: serializeEntry sample_entry)
     = [trimmed sample_entry].
Proof.
  split; [reflexivity|]. split; [reflexivity|]. split; [reflexivity|].
  apply (comment_line_before_record (ts "03") (lit "<!-- pinned -->") sample_entry);
    reflexivity.
Defined.




Lemma has_sep_meta_lines e :
  wf_entry e = true -> Forall (fun l => has_sep true l = false) (meta_lines e).
Proof.
  intros H. destruct (wf_entry_inv e H) as (Hi & Ht & Hg & Hgs & Hc & Hu & Hs & _).
  destruct (tags_joined (tags e) Hg Hgs) as (_ & Hj & _).
  repeat constructor;
    apply has_sep_meta_line;
    first [discriminate | reflexivity | assumption | apply wf_meta_inv; assumption].
Qed.

Lemma meta_lines_no_nl e :
  wf_entry e = true ->
  Forall (fun l => forallb (fun y => negb (N.eqb nl y)) l = true) (meta_lines e).
Proof.
  intros H. destruct (wf_entry_inv e H) as (Hi & Ht & Hg & Hgs & Hc & Hu & Hs & _).
  destruct (tags_joined (tags e) Hg Hgs) as (_ & Hj & _).
  repeat constructor; try (apply meta_line_no_nl; try reflexivity);
    try (apply wf_meta_inv; assumption); assumption.
Qed.

Lemma join_meta_lines e :
  exists A, join [nl] (meta_lines e) = 105%N :: A ++ source e.
Proof.
  unfold meta_lines.
  change [meta_line (lit "id") (id e); meta_line (lit "type") (type e);
          meta_line (lit "tags") (join (lit ", ") (tags e));
          meta_line (lit "createdAt") (createdAt e);
          meta_line (lit "updatedAt") (updatedAt e);
          meta_line (lit "source") (source e)]
    with ([meta_line (lit "id") (id e); meta_line (lit "type") (type e);
           meta_line (lit "tags") (join (lit ", ") (tags e));
           meta_line (lit "createdAt") (createdAt e);
           meta_line (lit "updatedAt") (updatedAt e)]
          ++ [meta_line (lit "source") (source e)]).
  rewrite join_app_last by discriminate.
  rewrite join_cons by discriminate.
  set (rest := join [nl] _).
  exists (lit "d: " ++ id e ++ [nl] ++ rest ++ [nl] ++ lit "source: ").
  unfold meta_line. change (lit "id") with [105%N; 100%N].
  change (lit "d: ") with [100%N; 58%N; 32%N]. change (lit ": ") with [58%N; 32%N].
  cbn [app]. rewrite <- !app_assoc. cbn [app]. rewrite <- !app_assoc. reflexivity.
Qed.

(** X8: an entry whose content is blank is written but never read back:
    whatever its metadata (well-formed, as that of an entry that does come
    back), the parser finds no content in its record and skips it. *)
Theorem blank_content_is_skipped now e c :
  wf_entry e = true -> forallb is_ws c = true ->
  parseMemoryMd now
    (serializeEntry (mkEntry (id e) (type e) c (tags e)
                             (createdAt e) (updatedAt e) (source e))) = [].
Proof.
  intros He Hc.
  set (e0 := mkEntry (id e) (type e) c (tags e) (createdAt e) (updatedAt e) (source e)).
  assert (M : meta_lines e0 = meta_lines e) by reflexivity.
  destruct (wf_entry_inv e He) as (_ & _ & _ & _ & _ & _ & Hs & _).
  destruct (wf_meta_inv _ Hs) as (Hs1 & Hs2 & Hs3).
  assert (Hsep : has_sep true (block_body e0) = false).
  { unfold block_body. rewrite M. apply has_sep_join. apply Forall_app. split.
    - apply has_sep_meta_lines. exact He.
    - repeat constructor. apply has_sep_blank. exact Hc. }
  assert (T : trim (block_text e0) = join [nl] (meta_lines e)).
  { rewrite block_text_eq, M. cbn [content e0].
    rewrite (join_app_last [nl] (meta_lines e)) by (unfold meta_lines; discriminate).
    rewrite <- !app_assoc. cbn [app].
    change (join [nl] (meta_lines e) ++ nl :: nl :: c ++ [nl; nl])
      with (join [nl] (meta_lines e) ++ (nl :: nl :: c ++ [nl; nl])).
    rewrite trim_app_blank.
    2:{ cbn [forallb]. rewrite forallb_app, Hc. reflexivity. }
    destruct (join_meta_lines e) as (A & J). rewrite J.
    unfold trim. rewrite app_comm_cons.
    rewrite trimEnd_app by (rewrite (trim_fix_End _ Hs3); exact Hs1).
    rewrite (trim_fix_End _ Hs3). cbn [app]. apply trimStart_hd. reflexivity. }
  unfold parseMemoryMd. change split_blocks with (pieces true).
  rewrite serializeEntry_block. unfold block_text at 1. fold (block_body e0).
  rewrite <- !app_assoc. change ([nl] ++ lit "---") with (nl :: (lit "---" ++ [])).
  rewrite pieces_line by (exact Hsep || reflexivity).
  rewrite pieces_after_sep by (left; reflexivity).
  cbn [map]. change (block_body e0 ++ [nl]) with (block_text e0). rewrite T.
  change (trim []) with (@nil N). cbn [filter is_empty negb].
  destruct (is_empty (join [nl] (meta_lines e))); cbn [negb flat_map]; [reflexivity|].
  rewrite app_nil_r. unfold parse_block.
  assert (L : split [nl] (join [nl] (meta_lines e)) = meta_lines e).
  { unfold meta_lines at 1.
    change [meta_line (lit "id") (id e); meta_line (lit "type") (type e);
            meta_line (lit "tags") (join (lit ", ") (tags e));
            meta_line (lit "createdAt") (createdAt e);
            meta_line (lit "updatedAt") (updatedAt e);
            meta_line (lit "source") (source e)]
      with ([meta_line (lit "id") (id e); meta_line (lit "type") (type e);
             meta_line (lit "tags") (join (lit ", ") (tags e));
             meta_line (lit "createdAt") (createdAt e);
             meta_line (lit "updatedAt") (updatedAt e)]
            ++ [meta_line (lit "source") (source e)]).
    pose proof (meta_lines_no_nl e He) as N0. unfold meta_lines in N0.
    rewrite split1_lines.
    - rewrite split1_none; [reflexivity|].
      rewrite Forall_forall in N0. apply N0. cbn [In]. tauto.
    - rewrite Forall_forall in *. intros l Hl. apply N0. cbn [In] in *. tauto. }
  rewrite L, parse_meta_lines by exact He. cbn [ls_meta contentLines join].
  change (trim []) with (@nil N). cbn [is_empty]. rewrite orb_true_r. reflexivity.
Qed.

(** X8 at concrete values. *)
Lemma blank_content_witness :
  wf_entry sample_entry = true /\ forallb is_ws (lit "  " ++ [nl]) = true
  /\ parseMemoryMd (ts "03")
       (serializeEntry (mkEntry (id sample_entry) (type sample_entry) (lit "  " ++ [nl])
                                (tags sample_entry) (createdAt sample_entry)
                                (updatedAt sample_entry) (source sample_entry))) = [].
Proof.
  split; [reflexivity|]. split; [reflexivity|].
  apply (blank_content_is_skipped (ts "03") sample_entry (lit "  " ++ [nl])); reflexivity.
Defined.

(** ** The operations *)

Lemma filter_delete_rows i rows :
  filter (fun x => str_eqb (r_id x) i) (delete_rows i rows) = [].
Proof.
  unfold delete_rows. induction rows as [|x rows IH]; [reflexivity|].
  cbn [filter]. destruct (str_eqb (r_id x) i) eqn:E; cbn [negb]; [exact IH|].
  cbn [filter]. rewrite E. exact IH.
Qed.

Lemma find_none (i : list N) l :
  ~ In i (map id l) -> find (fun x => str_eqb (id x) i) l = None.
Proof.
  induction l as [|x l IH]; [reflexivity|]. cbn [map In find]. intros H.
  destruct (str_eqb (id x) i) eqn:E.
  - apply str_eqb_eq in E. tauto.
  - apply IH. tauto.
Qed.

Lemma forget_absent clk i s es :
  (forall t, long_term t s = es) -> ~ In i (map id es) -> forget clk i s = (false, s).
Proof.
  intros Hes Hn. unfold forget. specialize (Hes (clk 0%nat)). unfold long_term in Hes.
  destruct (MEMORY_MD s) as [raw|]; [|reflexivity].
  rewrite Hes, filter_fresh by exact Hn. rewrite Nat.eqb_refl. reflexivity.
Qed.


Lemma long_term_unique s es es' :
  (forall t, long_term t s = es) -> (forall t, long_term t s = es') -> es = es'.
Proof. intros H H'. rewrite <- (H []), <- (H' []). reflexivity. Qed.

Lemma slice_from_zero {A} (l : list A) : slice_from (- 0) l = l.
Proof.
  unfold slice_from. change (- 0 <? 0)%Z with false. cbv iota.
  rewrite Z.min_l by lia. reflexivity.
Qed.

Section Further.

Variable MAX_SHORT_TERM : Z.
Variable MAX_FACTS : Z.
Variable localeCompare : list N -> list N -> Z.

(** X9: after any call of [save], on any store, the index holds exactly
    one row under the id of the entry returned: the row of that entry. *)
Theorem save_indexes_one_row clk rnd c o s :
  let r := save MAX_FACTS localeCompare clk rnd c o s in
  filter (fun x => str_eqb (r_id x) (id (fst r))) (memory_fts (snd r)) = [row_of (fst r)].
Proof.
  intros r. unfold r. rewrite save_rows. rewrite filter_app, filter_delete_rows.
  cbn [filter app row_of r_id]. rewrite str_eqb_refl. reflexivity.
Qed.

Lemma save_fact_id clk rnd c o s :
  id (fst (save MAX_FACTS localeCompare clk rnd c o s)) = saved_id rnd o.
Proof. reflexivity. Qed.

(** X10: on a well-formed store, after a well-formed save of another kind
    than log that finds room in the long-term partition, [getEntry] of the
    id of the entry returned gives that entry, whatever the daily logs
    hold. *)
Theorem saved_fact_is_found clk rnd c o s es t :
  store_ok s -> (forall t, long_term t s = es) ->
  wf_clock clk -> wf_save rnd c o = true -> is_log o = false ->
  (Z.of_nat (length (filter (fun x => negb (str_eqb (id x) (saved_id rnd o))) es))
   < MAX_FACTS)%Z ->
  let r := save MAX_FACTS localeCompare clk rnd c o s in
  getEntry t (snd r) (id (fst r)) = Some (fst r).
Proof.
  intros Hs Hes Hc Hw Hl Hcap r.
  pose proof Hs as [(es' & Hes' & Hwf & Hnd) _].
  rewrite (long_term_unique s es' es Hes' Hes) in *.
  destruct (save_fact MAX_FACTS localeCompare clk rnd c o s es Hs Hes Hc Hw Hl)
    as (L & _). fold r in L.
  rewrite <- (save_fact_id clk rnd c o s) in Hcap. fold r in Hcap.
  destruct (kept_all_has MAX_FACTS localeCompare (fst r) es Hnd Hcap) as (Hin & _).
  unfold getEntry. rewrite readAllEntries_split, L.
  apply find_unique; auto. apply kept_ids. exact Hnd.
Qed.

(** X11: on a well-formed store, a well-formed save of kind log whose
    record has no unpaired surrogate (the file keeps none) adds exactly the
    entry it returns to what [readAllEntries] gives, and leaves the other
    entries and their order as they were. *)
Theorem log_save_adds_one_entry clk rnd c o s t :
  store_ok s -> wf_clock clk -> wf_save rnd c o = true -> is_log o = true ->
  let r := save MAX_FACTS localeCompare clk rnd c o s in
  well_formed_utf16 (serializeEntry (fst r)) = true ->
  exists l1 l2,
    readAllEntries t s = l1 ++ l2 /\ readAllEntries t (snd r) = l1 ++ fst r :: l2.
Proof.
  intros Hs Hc Hw Hl r _.
  pose proof (save_entry_wf MAX_FACTS localeCompare clk rnd c o s Hs Hc Hw) as Hwf.
  destruct (save_log MAX_FACTS localeCompare clk rnd c o s Hl) as (M & D & _).
  fold r in Hwf, M, D.
  destruct (daily_insert t (DAILY_DIR s) (today (clk 2%nat) ++ lit ".md")
              (serializeEntry (fst r) ++ [nl]) (fst r)) as (l1 & l2 & E1 & E2).
  { apply endsWith_app. }
  { rewrite parse_serialized.
    - rewrite trimmed_stored by exact Hwf. reflexivity.
    - apply wf_stored_entry. exact Hwf.
    - right. exists nl. auto. }
  { intros raw Hin. rewrite parse_log_append.
    - rewrite trimmed_stored by exact Hwf. reflexivity.
    - destruct Hs as [_ Hlogs]. eapply log_ok_closed; eauto.
    - apply wf_stored_entry. exact Hwf. }
  exists (long_term t s ++ l1), l2. split.
  - rewrite readAllEntries_split. unfold daily_logs. rewrite E1, app_assoc. reflexivity.
  - rewrite readAllEntries_split. unfold daily_logs, long_term.
    rewrite M, D, E2, app_assoc. reflexivity.
Qed.

(** X12: with a positive [MAX_FACTS], after every well-formed save of
    another kind than log on a well-formed store the long-term partition
    holds at most [MAX_FACTS] entries, however many it held before. *)
Theorem long_term_within_capacity clk rnd c o s t :
  (0 < MAX_FACTS)%Z ->
  store_ok s -> wf_clock clk -> wf_save rnd c o = true -> is_log o = false ->
  let r := save MAX_FACTS localeCompare clk rnd c o s in
  (Z.of_nat (length (long_term t (snd r))) <= MAX_FACTS)%Z.
Proof.
  intros Hm Hs Hc Hw Hl r. pose proof Hs as [(es & Hes & _) _].
  destruct (save_fact MAX_FACTS localeCompare clk rnd c o s es Hs Hes Hc Hw Hl)
    as (L & _). fold r in L. rewrite L. unfold kept.
  rewrite slice_from_last by exact Hm. rewrite length_skipn. lia.
Qed.

(** X13: on a well-formed store, a well-formed save of another kind than
    log that finds room in the long-term partition leaves there the entry
    it returns and every entry stored under another id, unchanged; only
    their order may change. *)
Theorem save_keeps_the_other_entries clk rnd c o s es t :
  store_ok s -> (forall t, long_term t s = es) ->
  wf_clock clk -> wf_save rnd c o = true -> is_log o = false ->
  (Z.of_nat (length (filter (fun x => negb (str_eqb (id x) (saved_id rnd o))) es))
   < MAX_FACTS)%Z ->
  let r := save MAX_FACTS localeCompare clk rnd c o s in
  Permutation (long_term t (snd r))
              (fst r :: filter (fun x => negb (str_eqb (id x) (saved_id rnd o))) es).
Proof.
  intros Hs Hes Hc Hw Hl Hcap r.
  pose proof Hs as [(es' & Hes' & Hwf & Hnd) _].
  rewrite (long_term_unique s es' es Hes' Hes) in *.
  destruct (save_fact MAX_FACTS localeCompare clk rnd c o s es Hs Hes Hc Hw Hl)
    as (L & _). fold r in L. rewrite L.
  rewrite <- (save_fact_id clk rnd c o s) in *. fold r in Hcap. fold r.
  rewrite kept_all by assumption.
  eapply perm_trans; [apply sort_perm|]. apply upsert_entry_perm. exact Hnd.
Qed.

(** X14: in every state that well-formed calls produce from the empty
    store, what [readAllEntries] returns does not depend on the clock (no
    timestamp is defaulted) and every entry of it is well-formed with a
    trimmed content. *)
Theorem reachable_entries_well_formed ops :
  wf_run MAX_SHORT_TERM MAX_FACTS localeCompare empty_store ops ->
  let s := run MAX_SHORT_TERM MAX_FACTS localeCompare empty_store ops in
  exists all, (forall t, readAllEntries t s = all)
              /\ Forall (fun e => wf_stored e = true) all.
Proof.
  intros H s.
  assert (Hs : store_ok s) by (apply run_ok; [apply empty_store_ok|exact H]).
  destruct (readAllEntries_indep s Hs) as (all & Hall). exists all. split; [exact Hall|].
  rewrite <- (Hall []). apply store_ok_entries. exact Hs.
Qed.

End Further.

(** X15: with [MAX_FACTS] 0 nothing is trimmed ([slice(-0)] is the whole
    array): after a well-formed save of another kind than log on a
    well-formed store, the long-term partition holds the entry returned and
    every entry that was stored under another id. *)
Theorem zero_capacity_keeps_all localeCompare clk rnd c o s es t :
  store_ok s -> (forall t, long_term t s = es) ->
  wf_clock clk -> wf_save rnd c o = true -> is_log o = false ->
  let r := save 0 localeCompare clk rnd c o s in
  Permutation (long_term t (snd r))
              (fst r :: filter (fun x => negb (str_eqb (id x) (saved_id rnd o))) es).
Proof.
  intros Hs Hes Hc Hw Hl r.
  pose proof Hs as [(es' & Hes' & Hwf & Hnd) _].
  rewrite (long_term_unique s es' es Hes' Hes) in *.
  destruct (save_fact 0 localeCompare clk rnd c o s es Hs Hes Hc Hw Hl) as (L & _).
  fold r in L. rewrite L. unfold kept.
  rewrite slice_from_zero.
  eapply perm_trans; [apply sort_perm|]. apply upsert_entry_perm. exact Hnd.
Qed.

(** X16: on a well-formed store, calling [forget] a second time with the
    same id returns [false] and changes nothing. *)
Theorem forget_twice clk clk' i s :
  store_ok s -> no_lt (clk 1%nat) = true ->
  let r := forget clk i s in
  forget clk' i (snd r) = (false, snd r).
Proof.
  intros Hs Hn r. pose proof Hs as [(es & Hes & Hwf & Hnd) _].
  destruct (forget_spec clk i s es Hes Hwf Hn) as (H1 & H2 & H3 & _).
  fold r in H1, H2, H3. destruct (fst r) eqn:Hr.
  - apply (forget_absent clk' i (snd r) _ (H2 eq_refl)). apply filter_others_ids.
  - rewrite (H3 eq_refl). apply (forget_absent clk' i s es Hes).
    intros Hin. apply H1 in Hin. discriminate Hin.
Qed.

(** X17: on a well-formed store, after [forget] of an id that no daily
    log carries, [getEntry] of that id gives nothing, whether the call
    removed an entry or not. *)
Theorem forgotten_is_not_found clk i s t :
  store_ok s -> no_lt (clk 1%nat) = true ->
  (forall t, ~ In i (map id (daily_logs t s))) ->
  getEntry t (snd (forget clk i s)) i = None.
Proof.
  intros Hs Hn Hlogs. pose proof Hs as [(es & Hes & Hwf & Hnd) _].
  destruct (forget_spec clk i s es Hes Hwf Hn) as (H1 & H2 & H3 & D & _).
  unfold getEntry. apply find_none. rewrite readAllEntries_split, map_app.
  intros Hin. apply in_app_or in Hin. destruct Hin as [Hin|Hin].
  - destruct (fst (forget clk i s)) eqn:Hr.
    + rewrite (H2 eq_refl) in Hin. revert Hin. apply filter_others_ids.
    + rewrite (H3 eq_refl), Hes in Hin. apply H1 in Hin. discriminate Hin.
  - unfold daily_logs in Hin. rewrite D in Hin. exact (Hlogs t Hin).
Qed.


Lemma store_with_one_fact_ok : store_ok store_with_one_fact.
Proof.
  apply save_ok.
  - exact empty_store_ok.
  - apply wf_clock_at_time; reflexivity.
  - reflexivity.
Qed.

(** X10 at concrete values. *)
Lemma saved_fact_witness :
  let r := save 200 compareCodeUnits (at_time (ts "02")) (lit "u2") (lit "likes coffee")
                (fact_options "F2") store_with_one_fact in
  getEntry (ts "03") (snd r) (id (fst r)) = Some (fst r).
Proof.
  apply (saved_fact_is_found 200 compareCodeUnits (at_time (ts "02")) (lit "u2")
           (lit "likes coffee") (fact_options "F2") store_with_one_fact [the_one_fact]
           (ts "03")).
  - exact store_with_one_fact_ok.
  - intros t. vm_compute. reflexivity.
  - apply wf_clock_at_time; reflexivity.
  - reflexivity.
  - reflexivity.
  - vm_compute. reflexivity.
Defined.

(** X11 at concrete values. *)
Lemma log_save_witness :
  let r := save 200 compareCodeUnits (at_time (ts "02")) (lit "u2") (lit "daily note")
                (log_options "L1") store_with_one_fact in
  exists l1 l2,
    readAllEntries (ts "03") store_with_one_fact = l1 ++ l2
    /\ readAllEntries (ts "03") (snd r) = l1 ++ fst r :: l2.
Proof.
  apply (log_save_adds_one_entry 200 compareCodeUnits (at_time (ts "02")) (lit "u2")
           (lit "daily note") (log_options "L1") store_with_one_fact (ts "03")).
  - exact store_with_one_fact_ok.
  - apply wf_clock_at_time; reflexivity.
  - reflexivity.
  - reflexivity.
  - vm_compute. reflexivity.
Defined.

(** X12 at concrete values. *)
Lemma within_capacity_witness :
  let r := save 1 compareCodeUnits (at_time (ts "02")) (lit "u2") (lit "likes coffee")
                (fact_options "F2") store_with_one_fact in
  (Z.of_nat (length (long_term (ts "03") (snd r))) <= 1)%Z.
Proof.
  apply (long_term_within_capacity 1 compareCodeUnits (at_time (ts "02")) (lit "u2")
           (lit "likes coffee") (fact_options "F2") store_with_one_fact (ts "03")).
  - lia.
  - exact store_with_one_fact_ok.
  - apply wf_clock_at_time; reflexivity.
  - reflexivity.
  - reflexivity.
Defined.

(** X13 at concrete values. *)
Lemma other_entries_witness :
  let r := save 200 compareCodeUnits (at_time (ts "02")) (lit "u2") (lit "likes coffee")
                (fact_options "F2") store_with_one_fact in
  Permutation (long_term (ts "03") (snd r))
    (fst r :: filter (fun x => negb (str_eqb (id x) (saved_id (lit "u2") (fact_options "F2"))))
                     [the_one_fact]).
Proof.
  apply (save_keeps_the_other_entries 200 compareCodeUnits (at_time (ts "02")) (lit "u2")
           (lit "likes coffee") (fact_options "F2") store_with_one_fact [the_one_fact]
           (ts "03")).
  - exact store_with_one_fact_ok.
  - intros t. vm_compute. reflexivity.
  - apply wf_clock_at_time; reflexivity.
  - reflexivity.
  - reflexivity.
  - vm_compute. reflexivity.
Defined.

(** X14 at concrete values. *)
Lemma reachable_entries_witness :
  let s := run 20 200 compareCodeUnits empty_store two_facts_one_id in
  exists all, (forall t, readAllEntries t s = all)
              /\ Forall (fun e => wf_stored e = true) all.
Proof.
  apply (reachable_entries_well_formed 20 200 compareCodeUnits two_facts_one_id).
  repeat split; try (apply wf_clock_at_time; reflexivity); vm_compute; reflexivity.
Defined.

(** X15 at concrete values. *)
Lemma zero_capacity_witness :
  let r := save 0 compareCodeUnits (at_time (ts "02")) (lit "u2") (lit "likes coffee")
                (fact_options "F2") store_with_one_fact in
  Permutation (long_term (ts "03") (snd r))
    (fst r :: filter (fun x => negb (str_eqb (id x) (saved_id (lit "u2") (fact_options "F2"))))
                     [the_one_fact]).
Proof.
  apply (zero_capacity_keeps_all compareCodeUnits (at_time (ts "02")) (lit "u2")
           (lit "likes coffee") (fact_options "F2") store_with_one_fact [the_one_fact]
           (ts "03")).
  - exact store_with_one_fact_ok.
  - intros t. vm_compute. reflexivity.
  - apply wf_clock_at_time; reflexivity.
  - reflexivity.
  - reflexivity.
Defined.

(** X16 at concrete values. *)
Lemma forget_twice_witness :
  let r := forget (at_time (ts "02")) (lit "F1") store_with_one_fact in
  forget (at_time (ts "03")) (lit "F1") (snd r) = (false, snd r).
Proof.
  apply (forget_twice (at_time (ts "02")) (at_time (ts "03")) (lit "F1")
           store_with_one_fact).
  - exact store_with_one_fact_ok.
  - reflexivity.
Defined.

(** X17 at concrete values. *)
Lemma forgotten_witness :
  getEntry (ts "03") (snd (forget (at_time (ts "02")) (lit "F1") store_with_one_fact))
           (lit "F1") = None.
Proof.
  apply (forgotten_is_not_found (at_time (ts "02")) (lit "F1") store_with_one_fact
           (ts "03")).
  - exact store_with_one_fact_ok.
  - reflexivity.
  - intros t [].
Defined.


(** ** Init *)

(** X19: [init] is idempotent on a well-formed store: a second call
    leaves the files, the index and the window as the first call left
    them. *)
Theorem init_twice clk clk' s :
  store_ok s -> wf_clock clk -> init clk' (init clk s) = init clk s.
Proof.
  intros Hs Hc. pose proof (init_ok clk s Hs Hc) as Hs1.
  destruct (readAllEntries_indep _ Hs1) as (all & Hall).
  assert (M : exists raw, MEMORY_MD (init clk s) = Some raw).
  { unfold init, rebuildIndex. cbn [MEMORY_MD].
    destruct (MEMORY_MD s) as [raw|] eqn:E; cbn [MEMORY_MD]; eauto. }
  destruct M as (raw & M).
  unfold init at 1. rewrite M. unfold rebuildIndex. rewrite Hall.
  assert (R : memory_fts (init clk s) = map row_of all).
  { rewrite <- (Hall (clk 1%nat)). reflexivity. }
  rewrite <- R. destruct (init clk s). reflexivity.
Qed.

(** X20: when [MEMORY.md] is missing, [init] writes the header with the
    creation time; the file it writes holds no entry, so the index is
    built from the daily logs alone. *)
Theorem init_creates_an_empty_file clk s t :
  MEMORY_MD s = None -> no_lt (clk 0%nat) = true ->
  MEMORY_MD (init clk s) = Some (long_term_header (lit "Created: ") (clk 0%nat))
  /\ long_term t (init clk s) = []
  /\ memory_fts (init clk s) = map row_of (daily_logs (clk 1%nat) s).
Proof.
  intros M Hn. unfold init. rewrite M. unfold rebuildIndex, long_term.
  cbn [MEMORY_MD memory_fts]. split; [reflexivity|].
  rewrite parse_header by (auto using wf_label_created). split; [reflexivity|].
  unfold readAllEntries. cbn [MEMORY_MD DAILY_DIR].
  rewrite parse_header by (auto using wf_label_created). reflexivity.
Qed.

(** X19 at concrete values. *)
Lemma init_twice_witness :
  init (at_time (ts "02")) (init (at_time (ts "01")) store_with_one_fact)
  = init (at_time (ts "01")) store_with_one_fact.
Proof.
  apply (init_twice (at_time (ts "01")) (at_time (ts "02")) store_with_one_fact).
  - exact store_with_one_fact_ok.
  - apply wf_clock_at_time; reflexivity.
Defined.

(** X20 at concrete values. *)
Lemma init_creates_witness :
  MEMORY_MD (init (at_time (ts "01")) empty_store)
  = Some (long_term_header (lit "Created: ") (ts "01"))
  /\ long_term (ts "02") (init (at_time (ts "01")) empty_store) = []
  /\ memory_fts (init (at_time (ts "01")) empty_store)
     = map row_of (daily_logs (ts "01") empty_store).
Proof.
  apply (init_creates_an_empty_file (at_time (ts "01")) empty_store (ts "02"));
    reflexivity.
Defined.

(** ** The rows of the index *)




(** ** Context injection *)

Lemma last_ten_nonempty {A} (w : list A) : w <> [] -> skipn (length w - 10) w <> [].
Proof.
  intros H E. apply (f_equal (@length A)) in E. rewrite length_skipn in E.
  destruct w; [congruence|]. cbn [length] in E. lia.
Qed.

Lemma getShortTermSummary_eq s :
  getShortTermSummary s
  = match skipn (length (shortTerm s) - 10) (shortTerm s) with
    | [] => []
    | m :: l =>
        lit "Recent conversation (last " ++ decimal (length (map summary_line (m :: l)))
        ++ lit " turns):" ++ [nl] ++ join [nl] (map summary_line (m :: l))
    end.
Proof.
  unfold getShortTermSummary. destruct (shortTerm s) as [|m w] eqn:E; [reflexivity|].
  rewrite (slice_from_last 10) by lia. change (Z.to_nat 10) with 10.
  destruct (skipn (length (m :: w) - 10) (m :: w)) eqn:K; [|reflexivity].
  exfalso. revert K. apply last_ten_nonempty. discriminate.
Qed.

(** X22: the summary of the window is made of its last ten messages
    only: two windows with the same last ten messages have the same
    summary, whatever the files and the index hold. *)
Theorem summary_of_the_last_ten s s' :
  skipn (length (shortTerm s) - 10) (shortTerm s)
  = skipn (length (shortTerm s') - 10) (shortTerm s') ->
  getShortTermSummary s = getShortTermSummary s'.
Proof. intros H. rewrite !getShortTermSummary_eq, H. reflexivity. Qed.

(** The summary of the window is the empty string exactly when the
    window is empty. *)
Lemma summary_empty_iff s : getShortTermSummary s = [] <-> shortTerm s = [].
Proof.
  unfold getShortTermSummary. destruct (shortTerm s) as [|m w].
  - split; reflexivity.
  - split; intros H; discriminate H.
Qed.

(** X22 at concrete values. *)
Lemma summary_witness :
  let last_ten := map (fun k => mkMsg (lit "user") (lit "note") (Z.of_nat k)) (seq 1 10) in
  let s := mkStore None [] [] (mkMsg (lit "assistant") (lit "older") 0 :: last_ten) in
  let s' := mkStore (Some (lit "notes")) [] [row_1000] last_ten in
  getShortTermSummary s = getShortTermSummary s'.
Proof.
  apply (summary_of_the_last_ten
           (mkStore None [] []
              (mkMsg (lit "assistant") (lit "older") 0
               :: map (fun k => mkMsg (lit "user") (lit "note") (Z.of_nat k)) (seq 1 10)))
           (mkStore (Some (lit "notes")) [] [row_1000]
              (map (fun k => mkMsg (lit "user") (lit "note") (Z.of_nat k)) (seq 1 10)))).
  reflexivity.
Defined.

Section ContextProperties.

Variable number : Type.
Variable number_abs : number -> number.
Variable number_one : number.
Variable fts5_match :
  list N -> Limit -> list Row -> option (list (Row * number * option (list N))).

(** X23: a query that is blank gives the block of no query: [search]
    returns nothing for it and no memory is listed. *)
Theorem blank_query_lists_no_memory q s :
  is_empty (trim q) = true ->
  buildContextBlock number number_abs number_one fts5_match (Some q) s
  = buildContextBlock number number_abs number_one fts5_match None s.
Proof.
  intros H. unfold buildContextBlock. destruct q as [|c q]; [reflexivity|].
  unfold search. rewrite H. reflexivity.
Qed.

Lemma context_block_cases results s :
  (context_block number results s = [] <-> results = [] /\ shortTerm s = [])
  /\ (context_block number results s <> [] ->
      exists rest, context_block number results s
                   = nl :: nl :: lit "<memory>" ++ nl :: rest).
Proof.
  unfold context_block. pose proof (summary_empty_iff s) as Hs.
  destruct results as [|r rs]; cbn [app].
  - destruct (getShortTermSummary s) as [|x st]; cbn [is_empty].
    + split; [split; [intros _; split; [reflexivity|apply Hs; reflexivity]
                     |intros _; reflexivity]
             |intros H; congruence].
    + split; [split; [intros H; discriminate H
                     |intros [_ H]; apply Hs in H; discriminate H]
             |intros _; eexists; reflexivity].
  - split.
    + split; [intros H; discriminate H|intros [H _]; discriminate H].
    + intros _. eexists. reflexivity.
Qed.

(** X24: [buildContextBlock] throws exactly when its call of [search]
    does; the block is the empty string exactly when no memory is found (or
    no query is given) and the window is empty; a block that is not empty
    starts with two line feeds and [<memory>]. *)
Theorem context_block_empty_iff q s :
  let found :=
    match q with
    | Some (c :: q') =>
        search number number_abs number_one fts5_match (c :: q') (integer 5) s
    | _ => Some []
    end in
  let block := buildContextBlock number number_abs number_one fts5_match q s in
  (block = Some [] <-> found = Some [] /\ shortTerm s = [])
  /\ (block = None <-> found = None)
  /\ (forall b, block = Some b -> b <> [] ->
                exists rest, b = nl :: nl :: lit "<memory>" ++ nl :: rest).
Proof.
  intros found block.
  assert (B : block = match found with
                      | Some results => Some (context_block number results s)
                      | None => None
                      end).
  { unfold block, found, buildContextBlock. destruct q as [[|c q']|]; reflexivity. }
  rewrite B. destruct found as [results|].
  - destruct (context_block_cases results s) as [H1 H2].
    split; [split|split; [split|]].
    + intros E. injection E as E. apply H1 in E. destruct E as [-> Hw]. auto.
    + intros [E Hw]. injection E as ->. f_equal. apply H1. auto.
    + intros E. discriminate E.
    + intros E. discriminate E.
    + intros b E Hb. injection E as <-. apply H2. exact Hb.
  - split; [split|split; [split|]].
    + intros E. discriminate E.
    + intros [E _]. discriminate E.
    + reflexivity.
    + reflexivity.
    + intros b E. discriminate E.
Qed.

End ContextProperties.

(** X23 at concrete values. *)
Lemma blank_query_witness :
  buildContextBlock Z Z.abs 1%Z sample_fts5 (Some (lit "  ")) store_with_one_fact
  = buildContextBlock Z Z.abs 1%Z sample_fts5 None store_with_one_fact.
Proof.
  apply (blank_query_lists_no_memory Z Z.abs 1%Z sample_fts5 (lit "  ")
           store_with_one_fact).
  reflexivity.
Defined.

(** ** The memory tools *)

(** X25: [memory_list] with the limit 0 lists every matching entry, not
    none: [slice(-0)] is the whole array. *)
Theorem memory_list_limit_zero now ty s :
  let matching :=
    match ty with
    | Some (c :: t) => filter (fun e => str_eqb (type e) (c :: t)) (readAllEntries now s)
    | _ => readAllEntries now s
    end in
  let r := memory_list now ty (Some 0%Z) s in
  l_shown r = length matching /\ map l_id (l_entries r) = map id matching.
Proof.
  intros matching r. unfold r, memory_list. cbn [l_shown l_entries].
  fold matching. rewrite slice_from_zero. rewrite map_map. cbn [l_id]. auto.
Qed.

(** X26: [memory_list] with a positive limit, 20 when none is given,
    lists the last [limit] of the matching entries in the order of
    [readAllEntries], all of them when there are fewer; [total] counts all
    the entries, matching or not. *)
Theorem memory_list_positive_limit now ty arg_limit s :
  let limit := match arg_limit with Some l => l | None => 20%Z end in
  let matching :=
    match ty with
    | Some (c :: t) => filter (fun e => str_eqb (type e) (c :: t)) (readAllEntries now s)
    | _ => readAllEntries now s
    end in
  let r := memory_list now ty arg_limit s in
  (0 < limit)%Z ->
  l_total r = length (readAllEntries now s)
  /\ l_shown r = Nat.min (Z.to_nat limit) (length matching)
  /\ map l_id (l_entries r) = map id (skipn (length matching - Z.to_nat limit) matching).
Proof.
  intros limit matching r H. unfold r, memory_list. cbn [l_total l_shown l_entries].
  fold matching. fold limit. rewrite slice_from_last by exact H.
  rewrite length_skipn, map_map. cbn [l_id]. repeat split. lia.
Qed.

(** X26 at concrete values. *)
Lemma memory_list_witness :
  let s := run 20 200 compareCodeUnits empty_store two_facts_one_id in
  let r := memory_list (ts "09") (Some (lit "log")) (Some 1%Z) s in
  (0 < 1)%Z
  /\ l_total r = length (readAllEntries (ts "09") s)
  /\ l_shown r = Nat.min (Z.to_nat 1)
                   (length (filter (fun e => str_eqb (type e) (lit "log"))
                                   (readAllEntries (ts "09") s)))
  /\ map l_id (l_entries r)
     = map id (skipn (length (filter (fun e => str_eqb (type e) (lit "log"))
                                     (readAllEntries (ts "09") s)) - Z.to_nat 1)
                     (filter (fun e => str_eqb (type e) (lit "log"))
                             (readAllEntries (ts "09") s))).
Proof.
  intros s r. split; [lia|].
  apply (memory_list_positive_limit (ts "09") (Some (lit "log")) (Some 1%Z) s). lia.
Defined.

(** ** More on the operations *)

Lemma StronglySorted_suffix {A} (R : A -> A -> Prop) (l1 l2 : list A) :
  StronglySorted R (l1 ++ l2) -> StronglySorted R l2.
Proof.
  induction l1 as [|x l1 IH]; [auto|]. cbn [app]. intros H.
  inversion H; subst. auto.
Qed.

(** X27: for a consistent comparison of timestamps, after a well-formed
    save of another kind than log on a well-formed store the long-term file
    lists its entries by [updatedAt], oldest first. *)
Theorem long_term_oldest_first MAX_FACTS localeCompare clk rnd c o s t :
  (forall x y, (localeCompare x y > 0)%Z -> (localeCompare y x <= 0)%Z) ->
  (forall x y z, (localeCompare x y <= 0)%Z -> (localeCompare y z <= 0)%Z ->
                 (localeCompare x z <= 0)%Z) ->
  store_ok s -> wf_clock clk -> wf_save rnd c o = true -> is_log o = false ->
  let r := save MAX_FACTS localeCompare clk rnd c o s in
  StronglySorted (fun a b => (localeCompare (updatedAt a) (updatedAt b) <= 0)%Z)
                 (long_term t (snd r)).
Proof.
  intros Hflip Htrans Hs Hc Hw Hl r. pose proof Hs as [(es & Hes & _) _].
  destruct (save_fact MAX_FACTS localeCompare clk rnd c o s es Hs Hes Hc Hw Hl)
    as (L & _). fold r in L. rewrite L. unfold kept.
  destruct (slice_from_suffix (- MAX_FACTS)
              (sort_by_updatedAt localeCompare (upsert_entry (fst r) es))) as (pre & E).
  apply (StronglySorted_suffix _ pre). rewrite <- E.
  apply (sort_sorted localeCompare Hflip Htrans).
Qed.

(** X27 at concrete values. *)
Lemma oldest_first_witness :
  let r := save 200 compareCodeUnits (at_time (ts "02")) (lit "u2") (lit "likes coffee")
                (fact_options "F2") store_with_one_fact in
  StronglySorted (fun a b => (compareCodeUnits (updatedAt a) (updatedAt b) <= 0)%Z)
                 (long_term (ts "03") (snd r)).
Proof.
  apply (long_term_oldest_first 200 compareCodeUnits (at_time (ts "02")) (lit "u2")
           (lit "likes coffee") (fact_options "F2") store_with_one_fact (ts "03")).
  - exact compareCodeUnits_flip.
  - intros a b c. apply compareCodeUnits_trans.
  - exact store_with_one_fact_ok.
  - apply wf_clock_at_time; reflexivity.
  - reflexivity.
  - reflexivity.
Defined.

(** X28: on a well-formed store [getEntry] prefers the long-term
    partition: when an entry of the long-term partition has the id, that
    entry is returned, whatever the daily logs hold under the same id. *)
Theorem getEntry_prefers_long_term s t i e :
  store_ok s -> In e (long_term t s) -> id e = i -> getEntry t s i = Some e.
Proof.
  intros [(es & Hes & _ & Hnd) _] Hin Hi. unfold getEntry.
  rewrite readAllEntries_split. rewrite Hes in *. apply find_unique; assumption.
Qed.

(** X28 at concrete values. *)
Lemma getEntry_witness :
  let s := run 20 200 compareCodeUnits empty_store log_then_two_facts in
  let e := hd sample_entry (long_term (ts "09") s) in
  In e (long_term (ts "09") s) /\ getEntry (ts "09") s (lit "K1") = Some e.
Proof.
  intros s e.
  assert (Hin : In e (long_term (ts "09") s)) by (vm_compute; left; reflexivity).
  split; [exact Hin|].
  apply (getEntry_prefers_long_term s (ts "09") (lit "K1") e).
  - apply run_ok; [exact empty_store_ok|].
    repeat split; try (apply wf_clock_at_time; reflexivity); vm_compute; reflexivity.
  - exact Hin.
  - vm_compute. reflexivity.
Defined.

(** X29: after [flushSession], whatever was flushed, the window is empty
    and [buildContextBlock] without a query returns the empty string. *)
Theorem context_after_flush
    (number : Type) (number_abs : number -> number) (number_one : number)
    (fts5_match :
       list N -> Limit -> list Row -> option (list (Row * number * option (list N))))
    MAX_FACTS localeCompare clk rnd a s :
  let s' := flushSession MAX_FACTS localeCompare clk rnd a s in
  shortTerm s' = []
  /\ getShortTermSummary s' = []
  /\ buildContextBlock number number_abs number_one fts5_match None s' = Some [].
Proof.
  intros s'. assert (W : shortTerm s' = []).
  { unfold s'. rewrite flushSession_eq. reflexivity. }
  assert (G : getShortTermSummary s' = []) by (apply summary_empty_iff; exact W).
  split; [exact W|]. split; [exact G|].
  unfold buildContextBlock, context_block. rewrite G. reflexivity.
Qed.
